(** * sprinter.js: operations across the issue trackers of several repositories

    A shallow embedding of [sprinter.js].  The file has three layers:

    - [Js], [Underscore], [Async]: the parts of the JavaScript runtime and of
      the two libraries ([underscore], [async]) that the source calls;
    - the world the code runs in: a heap of mutable objects, the log of the
      requests handed to the GitHub client, and the client's replies;
    - the functions of [sprinter.js] themselves, under their source names,
      written in a state monad over that world.

    Remote replies arrive asynchronously.  Every operation therefore takes a
    schedule: the order in which the replies of its concurrent branches come
    back, as a list of branch indices. *)

From Stdlib Require Import ZArith List Lia Permutation Sorted Ascii String.
From stdpp Require Import base option list sorting strings gmap.

Local Open Scope string_scope.
Local Open Scope list_scope.

(** ** JavaScript values *)

(** The primitive values stored in filter and payload objects. *)
Inductive value :=
| VUndef
| VStr (s : string)
| VNum (n : Z).

#[global] Instance value_eq_dec : EqDecision value.
Proof. solve_decision. Defined.

(** Uncaught exceptions. *)
Inductive exn :=
| TypeError (msg : string)
| ReferenceError (ident : string).

(** An error object handed to a callback, with the [repo] attribute the
    source attaches to it. *)
Record error := {
  message : string;
  err_repo : option string
}.

(** An issue as the client returns it.  [updated_at] is the time value of
    [new Date(issue.updated_at)], in milliseconds; the client sends dates that
    parse, so the time value is a number.  [issue_repo] is the [repo]
    attribute, absent until the source sets it. *)
Record Issue := {
  issue_number : Z;
  issue_title : string;
  updated_at : Z;
  issue_repo : option string
}.

Record Milestone := {
  number : Z;
  title : string;
  ms_state : string;
  ms_repo : option string
}.

#[global] Instance error_eq_dec : EqDecision error.
Proof. solve_decision. Defined.
#[global] Instance issue_eq_dec : EqDecision Issue.
Proof. solve_decision. Defined.
#[global] Instance milestone_eq_dec : EqDecision Milestone.
Proof. solve_decision. Defined.

Module Js.

(** [s.split(sep)] for a one-character separator. *)
Fixpoint split (sep : Ascii.ascii) (s : string) : list string :=
  match s with
  | EmptyString => [EmptyString]
  | String c s' =>
      if Ascii.eqb c sep then EmptyString :: split sep s'
      else match split sep s' with
           | [] => [String c EmptyString]
           | w :: ws => String c w :: ws
           end
  end.

(** [s.indexOf(c) !== -1] *)
Fixpoint includes (c : Ascii.ascii) (s : string) : bool :=
  match s with
  | EmptyString => false
  | String c' s' => Ascii.eqb c' c || includes c s'
  end.

(** A string-or-undefined read from an array, as a value. *)
Definition of_string (s : option string) : value :=
  match s with Some s => VStr s | None => VUndef end.

(** String conversion in [org + '/' + repo]. *)
Definition to_str (s : option string) : string :=
  match s with Some s => s | None => "undefined" end.

(** [arr[i] = v] on an array.  Within the array the slot is overwritten;
    beyond its end the array grows to length [i + 1], and the slots skipped
    are holes, which read as [undefined] ([None]). *)
Definition set_index {A} (i : nat) (v : option A) (arr : list (option A))
  : list (option A) :=
  if decide (i < length arr) then <[i := v]> arr
  else arr ++ replicate (i - length arr) None ++ [v].

(** [arr[i]]: [undefined] in a hole and beyond the end. *)
Definition index {A} (arr : list (option A)) (i : nat) : option A :=
  default None (arr !! i).

(** What a property read on a plain object can find besides an own
    property: a member of [Object.prototype]. *)
Inductive proto_member :=
| ProtoFunction (arity : nat)
| ProtoObject.

(** The members every object literal inherits, with the [length] of the
    functions among them. *)
Definition object_prototype : list (string * proto_member) :=
  [ ("constructor", ProtoFunction 1);
    ("toString", ProtoFunction 0);
    ("toLocaleString", ProtoFunction 0);
    ("valueOf", ProtoFunction 0);
    ("hasOwnProperty", ProtoFunction 1);
    ("isPrototypeOf", ProtoFunction 1);
    ("propertyIsEnumerable", ProtoFunction 1);
    ("__defineGetter__", ProtoFunction 2);
    ("__defineSetter__", ProtoFunction 2);
    ("__lookupGetter__", ProtoFunction 1);
    ("__lookupSetter__", ProtoFunction 1);
    ("__proto__", ProtoObject) ].

Fixpoint assoc {A} (k : string) (l : list (string * A)) : option A :=
  match l with
  | [] => None
  | (k', v) :: l' => if String.eqb k k' then Some v else assoc k l'
  end.

Inductive property (A : Type) :=
| Own (v : A)
| Inherited (p : proto_member)
| Absent.
Arguments Own {A} v.
Arguments Inherited {A} p.
Arguments Absent {A}.

(** [o[k]] on an object literal used as a map: own properties first, then
    the prototype, else [undefined]. *)
Definition get {A} (o : gmap string A) (k : string) : property A :=
  match o !! k with
  | Some v => Own v
  | None =>
      match assoc k object_prototype with
      | Some p => Inherited p
      | None => Absent
      end
  end.

(** Truthiness of a property read whose own values are arrays: only
    [undefined] is falsy. *)
Definition truthy {A} (p : property A) : bool :=
  match p with
  | Absent => false
  | _ => true
  end.

End Js.

Module Underscore.

(** [_.extend(dest, src)] on object contents: the properties of [src] are
    copied over those of [dest]. *)
Definition extend (dest src : gmap string value) : gmap string value :=
  src ∪ dest.

(** [_.flatten(data)] on the array of per-task arrays that [async.parallel]
    hands over.  A slot no task has filled contributes no item.  (Such slots
    occur only beside an error, where both callers drop the data.) *)
Definition flatten {T} (data : list (option (list T))) : list T :=
  concat (map (default []) data).

Section SortBy.
Context {A : Type} (criteria : A -> Z).

Fixpoint insert_sorted (x : A) (l : list A) : list A :=
  match l with
  | [] => [x]
  | y :: l' =>
      if (criteria x <=? criteria y)%Z then x :: y :: l'
      else y :: insert_sorted x l'
  end.

(** [_.sortBy(list, iterator)]: a stably sorted copy, ascending by the
    iterator's result.  The library pairs every item with its index and its
    criteria, sorts the pairs by criteria and, for equal criteria, by index,
    and returns the items: that order is total on the pairs, so the result is
    the one arrangement an insertion sort that keeps ties in place computes. *)
Fixpoint sortBy (l : list A) : list A :=
  match l with
  | [] => []
  | x :: l' => insert_sorted x (sortBy l')
  end.
End SortBy.

(** [_.groupBy(list, key)]: an object literal mapping each key to the array
    of the items that have it, in list order.  (The key [__proto__] is not a
    property name like the others in JavaScript; the runs below have no item
    with that key.) *)
Definition groupBy {A} (key : A -> string) (l : list A) : gmap string (list A) :=
  fold_left (fun result v => <[key v := default [] (result !! key v) ++ [v]]> result) l ∅.

(** [_.map(obj, iterator)] where [obj] was read from an object literal and
    the iterator may throw.  An array is mapped item by item.  A function is
    walked by its [length], every [obj[i]] being [undefined]; an object
    without [length] is walked by its own enumerable keys, of which
    [Object.prototype] has none. *)
Fixpoint map_items {A B} (f : option A -> exn + B) (l : list (option A))
  : exn + list B :=
  match l with
  | [] => inr []
  | x :: l' =>
      match f x with
      | inl e => inl e
      | inr y =>
          match map_items f l' with
          | inl e => inl e
          | inr ys => inr (y :: ys)
          end
      end
  end.

Definition map_property {A B} (f : option A -> exn + B) (p : Js.property (list A))
  : exn + list B :=
  match p with
  | Js.Own l => map_items f (map Some l)
  | Js.Inherited (Js.ProtoFunction arity) => map_items f (replicate arity None)
  | Js.Inherited Js.ProtoObject => inr []
  | Js.Absent => inr []
  end.

End Underscore.

(** ** The world: heap, request log, remote replies *)

(** The four operations of the GitHub client the source calls. *)
Inductive op :=
| RepoIssues
| GetAllMilestones
| UpdateMilestone
| CreateMilestone.

#[global] Instance op_eq_dec : EqDecision op.
Proof. solve_decision. Defined.

(** One request handed to the client: the operation, the address of the
    object passed as its message, and the contents the client read from that
    object when it was called (it builds the HTTP request before returning). *)
Record call := {
  call_op : op;
  call_payload : nat;
  call_seen : gmap string value
}.

(** Objects live in a heap, addressed by allocation order, so that two
    references to one object can be told from two equal objects. *)
Record world := {
  heap : list (gmap string value);
  calls : list call
}.

(** The remote side: what the client answers to the request with a given
    sequence number (the number of requests issued before it) and message. *)
Record github := {
  repoIssues : nat -> gmap string value -> error + list Issue;
  getAllMilestones : nat -> gmap string value -> error + list Milestone;
  updateMilestone : nat -> gmap string value -> error + Milestone;
  createMilestone : nat -> gmap string value -> error + Milestone
}.

(** What the caller of an asynchronous operation observes: its callback
    invoked as [callback(err, data)] (an argument left out is [None]), an
    exception nobody catches, or a callback that has not been invoked. *)
Inductive outcome (D : Type) :=
| Called (err : option error) (data : option D)
| Threw (x : exn)
| Pending.
Arguments Called {D} err data.
Arguments Threw {D} x.
Arguments Pending {D}.

(** State monad over the world. *)
Definition M (A : Type) : Type := world -> A * world.

Definition ret {A} (a : A) : M A := fun w => (a, w).

Definition bind {A B} (m : M A) (k : A -> M B) : M B :=
  fun w => let (a, w') := m w in k a w'.

Notation "x <- m ;; k" := (bind m (fun x => k))
  (at level 100, m at next level, right associativity).

(** [{...}]: a new object. *)
Definition alloc (o : gmap string value) : M nat :=
  fun w => (length (heap w), {| heap := heap w ++ [o]; calls := calls w |}).

Definition read (l : nat) : M (gmap string value) :=
  fun w => (default ∅ (heap w !! l), w).

(** [_.extend(dest, src)] on a heap object: [dest] is updated in place and
    returned. *)
Definition extend_at (dest : nat) (src : gmap string value) : M nat :=
  fun w =>
    (dest,
     {| heap := <[dest := Underscore.extend (default ∅ (heap w !! dest)) src]> (heap w);
        calls := calls w |}).

(** A call of a client operation with the object at [payload] as message.
    The request is logged and the reply that will come back is fixed. *)
Definition request {R} (o : op) (reply : nat -> gmap string value -> R) (payload : nat)
  : M R :=
  fun w =>
    let seen := default ∅ (heap w !! payload) in
    (reply (length (calls w)) seen,
     {| heap := heap w;
        calls := calls w ++ [{| call_op := o; call_payload := payload; call_seen := seen |}] |}).

Module Async.

(** What a task's reply handler does once the reply is there: report to the
    task callback ([callback(err)] or [callback(null, v)]), or throw. *)
Inductive handled (T : Type) :=
| Done (r : error + T)
| Raise (x : exn).
Arguments Done {T} r.
Arguments Raise {T} x.

(** A task: called once, it issues its request and leaves a pending reply. *)
Definition task (T : Type) : Type := M (handled T).

(** All tasks are started, in array order, before any reply arrives. *)
Fixpoint dispatch {T} (tasks : list (task T)) : M (list (handled T)) :=
  match tasks with
  | [] => ret []
  | t :: ts =>
      h <- t ;;
      hs <- dispatch ts ;;
      ret (h :: hs)
  end.

(** Replies are handled in schedule order.  The task callback first stores
    its second argument at the task's index in the results array
    ([results[index] = v], with [v] undefined when the task reports an
    error), then looks at the error: the first error calls the final callback
    at once, with the results array as it is then, after which the final
    callback is a no-op; the final callback is called with all results when
    the last task has reported.  An exception thrown by a reply handler is
    caught by nobody. *)
Fixpoint deliver {T} (n : nat) (pending : list (handled T)) (sched : list nat)
  (results : list (option T)) (completed : nat) : outcome (list (option T)) :=
  match sched with
  | [] => Pending
  | i :: sched' =>
      match pending !! i with
      | None => deliver n pending sched' results completed
      | Some (Raise x) => Threw x
      | Some (Done (inl err)) => Called (Some err) (Some (Js.set_index i None results))
      | Some (Done (inr v)) =>
          let results' := Js.set_index i (Some v) results in
          if decide (n <= S completed) then Called None (Some results')
          else deliver n pending sched' results' (S completed)
      end
  end.

(** [async.parallel(tasks, callback)] on an array of tasks.  The results
    array starts empty. *)
Definition parallel {T} (tasks : list (task T)) (sched : list nat)
  : M (outcome (list (option T))) :=
  match tasks with
  | [] => ret (Called None (Some []))
  | _ =>
      pending <- dispatch tasks ;;
      ret (deliver (length tasks) pending sched [] 0)
  end.

End Async.

(** ** sprinter.js *)

(** [convertSlugsToObjects(slugs)]: every slug split at its slashes. *)
Definition convertSlugsToObjects (slugs : list string) : list (list string) :=
  map (fun slug => Js.split "/"%char slug) slugs.

(** [sortIssues(issues)]: sorted by last update, then reversed. *)
Definition sortIssues (issues : list Issue) : list Issue :=
  reverse (Underscore.sortBy (fun issue => updated_at issue) issues).

(** The fields of a [Sprinter] instance the operations read.  The client
    handle [this.gh] is the [github] argument of the operations. *)
Record sprinter := {
  username : string;
  password : string;
  repos : list (list string)
}.

(** [new Sprinter(username, password, repoSlugs)].  The body has no [throw]:
    it returns the instance. *)
Definition Sprinter (username password : string) (repoSlugs : list string)
  : exn + sprinter :=
  inr {| username := username;
         password := password;
         repos := convertSlugsToObjects repoSlugs |}.

(** [org + '/' + repo] *)
Definition slug_of (org repo : option string) : string :=
  Js.to_str org +:+ "/" +:+ Js.to_str repo.

(** The object literal [{user: org, repo: repo}]. *)
Definition repo_fields (org repo : option string) : gmap string value :=
  <["user" := Js.of_string org]> {["repo" := Js.of_string repo]}.

(** [err.repo = s] *)
Definition set_err_repo (s : string) (err : error) : error :=
  {| message := message err; err_repo := Some s |}.

(** [issue.repo = s] *)
Definition set_issue_repo (s : string) (i : Issue) : Issue :=
  {| issue_number := issue_number i;
     issue_title := issue_title i;
     updated_at := updated_at i;
     issue_repo := Some s |}.

(** [milestone.repo = s] *)
Definition set_milestone_repo (s : string) (m : Milestone) : Milestone :=
  {| number := number m;
     title := title m;
     ms_state := ms_state m;
     ms_repo := Some s |}.

(** [Sprinter.prototype._eachRepo]: one task per configured repo, with
    [org = repoSlug[0]] and [repo = repoSlug[1]], run by [async.parallel]. *)
Definition _eachRepo {T} (me : sprinter)
  (fn : option string -> option string -> Async.task T) (sched : list nat)
  : M (outcome (list (option T))) :=
  let funcs :=
    map (fun repoSlug : list string =>
           let org := repoSlug !! 0%nat in
           let repo := repoSlug !! 1%nat in
           fn org repo)
        (repos me) in
  Async.parallel funcs sched.

(** [Sprinter.prototype._eachRepoFlattened]: the callback receives
    [(err, _.flatten(data))]. *)
Definition _eachRepoFlattened {T} (me : sprinter)
  (fn : option string -> option string -> Async.task (list T)) (sched : list nat)
  : M (outcome (list T)) :=
  r <- _eachRepo me fn sched ;;
  ret (match r with
       | Called err data => Called err (Some (Underscore.flatten (default [] data)))
       | Threw x => Threw x
       | Pending => Pending
       end).

(** [Sprinter.prototype.getIssues(userFilters, mainCallback)].
    [userFilters] is the address of the caller's filter object, or [None]
    when the function is called with the callback alone. *)
Definition getIssues (me : sprinter) (gh : github) (sched : list nat)
  (userFilters : option nat) : M (outcome (list Issue)) :=
  userFilters <- match userFilters with
                 | Some l => ret l
                 | None => alloc ∅
                 end ;;
  overrides <- read userFilters ;;
  fresh <- alloc {["state" := VStr "open"]} ;;
  filters <- extend_at fresh overrides ;;
  r <- _eachRepoFlattened me
         (fun org repo =>
            localFilters <- extend_at filters (repo_fields org repo) ;;
            reply <- request RepoIssues (repoIssues gh) localFilters ;;
            ret (match reply with
                 | inl err => Async.Done (inl (set_err_repo (slug_of org repo) err))
                 | inr issues =>
                     Async.Done (inr (map (set_issue_repo (slug_of org repo)) issues))
                 end))
         sched ;;
  ret (match r with
       | Called (Some err) _ => Called (Some err) None
       | Called None issues => Called None (Some (sortIssues (default [] issues)))
       | Threw x => Threw x
       | Pending => Pending
       end).

(** [Sprinter.prototype.getMilestones(mainCallback)] *)
Definition getMilestones (me : sprinter) (gh : github) (sched : list nat)
  : M (outcome (gmap string (list Milestone))) :=
  r <- _eachRepoFlattened me
         (fun org repo =>
            payload <- alloc (repo_fields org repo) ;;
            reply <- request GetAllMilestones (getAllMilestones gh) payload ;;
            ret (match reply with
                 | inl err => Async.Done (inl (set_err_repo (slug_of org repo) err))
                 | inr milestones =>
                     Async.Done
                       (inr (map (set_milestone_repo (slug_of org repo)) milestones))
                 end))
         sched ;;
  ret (match r with
       | Called (Some err) _ => Called (Some err) None
       | Called None milestones =>
           Called None (Some (Underscore.groupBy title (default [] milestones)))
       | Threw x => Threw x
       | Pending => Pending
       end).

(** The message of one [updateMilestone] request in [closeMilestones]. *)
Definition close_fields (splitSlug : list string) (m : Milestone) : gmap string value :=
  <["user" := Js.of_string (splitSlug !! 0%nat)]>
    (<["repo" := Js.of_string (splitSlug !! 1%nat)]>
       (<["number" := VNum (number m)]>
          (<["title" := VStr (title m)]> {["state" := VStr "closed"]}))).

(** The iterator of [_.map(matches, ...)] in [closeMilestones]: it reads
    [match.repo.split('/')] and returns the task.  In the task's reply
    handler the error branch evaluates [org + '/' + repo]; neither identifier
    is declared in any enclosing scope of that handler (its parameters are
    [err, resp]; around it are [localCallback], [match], [splitSlug],
    [matches], [updaters], [milestones], [me], [title], [mainCallback] and the
    module's own declarations), so the read raises a [ReferenceError] before
    [localCallback] is reached. *)
Definition updater (gh : github) (match_ : option Milestone)
  : exn + Async.task Milestone :=
  match match_ with
  | None => inl (TypeError "Cannot read property 'repo' of undefined")
  | Some m =>
      match ms_repo m with
      | None => inl (TypeError "Cannot read property 'split' of undefined")
      | Some r =>
          let splitSlug := Js.split "/"%char r in
          inr (payload <- alloc (close_fields splitSlug m) ;;
               reply <- request UpdateMilestone (updateMilestone gh) payload ;;
               ret (match reply with
                    | inl err => Async.Raise (ReferenceError "org")
                    | inr resp => Async.Done (inr resp)
                    end))
      end
  end.

(** [Sprinter.prototype.closeMilestones(title, mainCallback)].  [sched1]
    orders the replies to the milestone listing, [sched2] those to the
    updates.  The first statement of the callback given to [getMilestones]
    reads [milestones[title]], before [err] is tested.  The [console.log]
    line writes to standard output only and is left out. *)
Definition closeMilestones (me : sprinter) (gh : github) (sched1 sched2 : list nat)
  (title : string) : M (outcome (list (option Milestone))) :=
  r <- getMilestones me gh sched1 ;;
  match r with
  | Threw x => ret (Threw x)
  | Pending => ret Pending
  | Called err milestones =>
      match milestones with
      | None => ret (Threw (TypeError "Cannot read property of undefined"))
      | Some milestones =>
          let matches := Js.get milestones title in
          match err with
          | Some err => ret (Called (Some err) None)
          | None =>
              if negb (Js.truthy matches) then ret (Called None (Some []))
              else
                match Underscore.map_property (updater gh) matches with
                | inl x => ret (Threw x)
                | inr updaters => Async.parallel updaters sched2
                end
          end
      end
  end.

(** [Sprinter.prototype.createMilestones(milestone, mainCallback)] *)
Definition createMilestones (me : sprinter) (gh : github) (sched : list nat)
  (milestone : gmap string value) : M (outcome (list (option Milestone))) :=
  _eachRepo me
    (fun org repo =>
       fresh <- alloc (repo_fields org repo) ;;
       payload <- extend_at fresh milestone ;;
       reply <- request CreateMilestone (createMilestone gh) payload ;;
       ret (match reply with
            | inl err => Async.Done (inl (set_err_repo (slug_of org repo) err))
            | inr result => Async.Done (inr result)
            end))
    sched.

(** ** The requests of the fan-out operations

    What each branch sends and what the remote answers, by branch index.
    The lemmas on the request log below show that these are the requests the
    operations issue. *)

(** The contents of the caller's filter object ([{}] when none is passed). *)
Definition caller_filters (userFilters : option nat) (w : world) : gmap string value :=
  match userFilters with
  | Some l => default ∅ (heap w !! l)
  | None => ∅
  end.

(** The contents of [filters] after [_.extend({state: 'open'}, userFilters)]. *)
Definition merged_filters (overrides : gmap string value) : gmap string value :=
  Underscore.extend {["state" := VStr "open"]} overrides.

(** The address of the object [filters] in a [getIssues] call. *)
Definition filters_address (userFilters : option nat) (w : world) : nat :=
  match userFilters with
  | Some _ => length (heap w)
  | None => S (length (heap w))
  end.

(** What the [repoIssues] request of one repo reads from its message. *)
Definition issue_filters (overrides : gmap string value) (repoSlug : list string)
  : gmap string value :=
  Underscore.extend (merged_filters overrides)
    (repo_fields (repoSlug !! 0%nat) (repoSlug !! 1%nat)).

(** The replies to the [repoIssues] requests of a [getIssues] call started
    in world [w], in branch order. *)
Definition issue_replies (me : sprinter) (gh : github) (userFilters : option nat)
  (w : world) : list (error + list Issue) :=
  imap (fun i repoSlug =>
          repoIssues gh (length (calls w) + i)
            (issue_filters (caller_filters userFilters w) repoSlug))
       (repos me).

(** The tag of the items of one configured repo. *)
Definition repo_tag (repoSlug : list string) : string :=
  slug_of (repoSlug !! 0%nat) (repoSlug !! 1%nat).

(** The issues of all repos in encounter order (repo order, then the order
    within the repo's reply), each tagged with its repo. *)
Definition tagged_issues (me : sprinter) (results : list (list Issue)) : list Issue :=
  concat (zip_with (fun repoSlug issues => set_issue_repo (repo_tag repoSlug) <$> issues)
            (repos me) results).

(** The message of the [createMilestone] request of one repo. *)
Definition create_payload (milestone : gmap string value) (repoSlug : list string)
  : gmap string value :=
  Underscore.extend (repo_fields (repoSlug !! 0%nat) (repoSlug !! 1%nat)) milestone.

(** The replies to the [createMilestone] requests of a [createMilestones]
    call started in world [w], in branch order. *)
Definition create_replies (me : sprinter) (gh : github) (milestone : gmap string value)
  (w : world) : list (error + Milestone) :=
  imap (fun i repoSlug =>
          createMilestone gh (length (calls w) + i) (create_payload milestone repoSlug))
       (repos me).

(** Two objects with the same fields outside [user] and [repo]. *)
Definition same_filters (a b : gmap string value) : Prop :=
  forall k, k <> "user" -> k <> "repo" -> a !! k = b !! k.

(** What [async.parallel] reports for given pending replies and schedule. *)
Definition settled {T} (pending : list (Async.handled T)) (sched : list nat)
  : outcome (list (option T)) :=
  match pending with
  | [] => Called None (Some [])
  | _ :: _ =>
      Async.deliver (length pending) pending sched [] 0
  end.

(** What [getIssues] reports to its callback, from what [async.parallel]
    reports: the callbacks of [_eachRepoFlattened] and [getIssues] in turn. *)
Definition issues_outcome (r : outcome (list (option (list Issue))))
  : outcome (list Issue) :=
  match r with
  | Called (Some err) _ => Called (Some err) None
  | Called None data =>
      Called None (Some (sortIssues (Underscore.flatten (default [] data))))
  | Threw x => Threw x
  | Pending => Pending
  end.

(** The requests logged since world [w]. *)
Definition requests_since (w w' : world) : list call :=
  drop (length (calls w)) (calls w').

(** ** A sample configuration

    Two repos, [a/x] and [b/y], and a remote whose failures are switched by
    flags; the concrete runs below use it. *)

Definition sample_me : sprinter :=
  {| username := "user";
     password := "secret";
     repos := convertSlugsToObjects ["a/x"; "b/y"] |}.

Definition sample_issue (n t : Z) : Issue :=
  {| issue_number := n; issue_title := "bug"; updated_at := t; issue_repo := None |}.

Definition sample_milestone (n : Z) (t : string) : Milestone :=
  {| number := n; title := t; ms_state := "open"; ms_repo := None |}.

Definition boom : error := {| message := "boom"; err_repo := None |}.

(** [a/x] has two issues updated at the same time, [b/y] one newer issue and
    one older; each repo has a milestone [Sprint 1].  With a flag set, the
    operation fails for [b/y]. *)
Definition sample_gh (issues_fail milestones_fail update_fail : bool) : github :=
  {| repoIssues := fun _ seen =>
       if decide (seen !! "user" = Some (VStr "a"))
       then inr [sample_issue 1 5; sample_issue 2 5]
       else if issues_fail then inl boom
            else inr [sample_issue 3 9; sample_issue 4 1];
     getAllMilestones := fun _ seen =>
       if decide (seen !! "user" = Some (VStr "a"))
       then inr [sample_milestone 7 "Sprint 1"]
       else if milestones_fail then inl boom
            else inr [sample_milestone 3 "Sprint 1"];
     updateMilestone := fun _ seen =>
       if decide (seen !! "user" = Some (VStr "a"))
       then inr (sample_milestone 7 "Sprint 1")
       else if update_fail then inl boom
            else inr (sample_milestone 3 "Sprint 1");
     createMilestone := fun n seen =>
       inr (sample_milestone (Z.of_nat n) "Sprint 2") |}.

(** A world in which the caller holds one filter object, at address 0. *)
Definition sample_world : world :=
  {| heap := [{["state" := VStr "closed"]}]; calls := [] |}.

(** The sample remote, with [createMilestone] failing for the repos of one
    organization. *)
Definition sample_gh_create_fails (org : string) : github :=
  {| repoIssues := repoIssues (sample_gh false false false);
     getAllMilestones := getAllMilestones (sample_gh false false false);
     updateMilestone := updateMilestone (sample_gh false false false);
     createMilestone := fun n seen =>
       if decide (seen !! "user" = Some (VStr org))
       then inl boom
       else inr (sample_milestone (Z.of_nat n) "Sprint 2") |}.

(** ** The requests of getMilestones and closeMilestones *)

(** The replies to the [getAllMilestones] requests of a [getMilestones] call
    started in world [w], in branch order. *)
Definition milestone_replies (me : sprinter) (gh : github) (w : world)
  : list (error + list Milestone) :=
  imap (fun i repoSlug =>
          getAllMilestones gh (length (calls w) + i)
            (repo_fields (repoSlug !! 0%nat) (repoSlug !! 1%nat)))
       (repos me).

(** The milestones of all repos in encounter order, each tagged with its
    repo. *)
Definition tagged_milestones (me : sprinter) (results : list (list Milestone))
  : list Milestone :=
  concat (zip_with (fun repoSlug ms => set_milestone_repo (repo_tag repoSlug) <$> ms)
            (repos me) results).

(** What [getMilestones] reports to its callback, from what [async.parallel]
    reports. *)
Definition milestones_outcome (r : outcome (list (option (list Milestone))))
  : outcome (gmap string (list Milestone)) :=
  match r with
  | Called (Some err) _ => Called (Some err) None
  | Called None data =>
      Called None
        (Some (Underscore.groupBy title (Underscore.flatten (default [] data))))
  | Threw x => Threw x
  | Pending => Pending
  end.

(** The message of the [updateMilestone] request for a tagged milestone. *)
Definition update_fields (m : Milestone) : gmap string value :=
  close_fields (Js.split "/"%char (Js.to_str (ms_repo m))) m.

(** The replies to the [updateMilestone] requests of a [closeMilestones]
    call started in world [w], in the order of the matching milestones; the
    requests follow the listing requests, one per configured repo. *)
Definition update_replies (me : sprinter) (gh : github) (w : world)
  (matches : list Milestone) : list (error + Milestone) :=
  imap (fun j m =>
          updateMilestone gh (length (calls w) + length (repos me) + j) (update_fields m))
       matches.

(** ** Orders on items ranked by a criteria function *)

Definition ascending {A} (criteria : A -> Z) (a b : A) : Prop :=
  (criteria a <= criteria b)%Z.

Definition descending {A} (criteria : A -> Z) (a b : A) : Prop :=
  (criteria b <= criteria a)%Z.

(** * Properties *)

(** ** Slugs *)

Section Slugs.

Lemma split_without_separator sep s :
  Js.includes sep s = false -> Js.split sep s = [s].
Proof.
  induction s as [|c s IH]; simpl; [reflexivity|].
  destruct (Ascii.eqb c sep); simpl; [discriminate|].
  intros H. rewrite (IH H). reflexivity.
Qed.

Lemma split_at_first_separator sep a b :
  Js.includes sep a = false ->
  Js.split sep (a +:+ String sep b) = a :: Js.split sep b.
Proof.
  induction a as [|c a IH]; simpl.
  - intros _. rewrite Ascii.eqb_refl. reflexivity.
  - destruct (Ascii.eqb c sep); simpl; [discriminate|].
    intros H. rewrite (IH H). reflexivity.
Qed.

(** A slug with one separator splits into its two segments. *)
Lemma split_slug org repo :
  Js.includes "/" org = false ->
  Js.includes "/" repo = false ->
  Js.split "/" (org +:+ "/" +:+ repo) = [org; repo].
Proof.
  intros Ho Hr.
  change ("/" +:+ repo) with (String "/" repo).
  rewrite (split_at_first_separator _ _ _ Ho).
  rewrite (split_without_separator _ _ Hr). reflexivity.
Qed.

(** The tag built from the parsed pair of such a slug is the slug. *)
Lemma slug_of_split org repo :
  Js.includes "/" org = false ->
  Js.includes "/" repo = false ->
  let repoSlug := Js.split "/" (org +:+ "/" +:+ repo) in
  slug_of (repoSlug !! 0%nat) (repoSlug !! 1%nat) = org +:+ "/" +:+ repo.
Proof.
  intros Ho Hr. simpl. rewrite (split_slug _ _ Ho Hr). reflexivity.
Qed.

Lemma convertSlugsToObjects_length slugs :
  length (convertSlugsToObjects slugs) = length slugs.
Proof. unfold convertSlugsToObjects. apply length_map. Qed.

Lemma convertSlugsToObjects_lookup slugs i :
  convertSlugsToObjects slugs !! i = Js.split "/" <$> slugs !! i.
Proof. unfold convertSlugsToObjects. apply list_lookup_fmap. Qed.

End Slugs.

(** C5, as the code has it: construction never rejects a slug.  For every
    list of slugs the constructor returns an instance whose [repos] has one
    entry per slug, same length and same order, each the slug split at its
    slashes; the entry of a slug [org/repo] with no further slash is the pair
    [[org; repo]]. *)
Theorem Sprinter_parses_every_slug username password repoSlugs :
  exists me,
    Sprinter username password repoSlugs = inr me /\
    length (repos me) = length repoSlugs /\
    (forall i slug, repoSlugs !! i = Some slug ->
       repos me !! i = Some (Js.split "/" slug)) /\
    (forall i org repo,
       Js.includes "/" org = false ->
       Js.includes "/" repo = false ->
       repoSlugs !! i = Some (org +:+ "/" +:+ repo) ->
       repos me !! i = Some [org; repo]).
Proof.
  eexists. split; [reflexivity|]. simpl.
  split; [apply convertSlugsToObjects_length|].
  split.
  - intros i slug H. rewrite convertSlugsToObjects_lookup, H. reflexivity.
  - intros i org repo Ho Hr H.
    rewrite convertSlugsToObjects_lookup, H. simpl.
    f_equal. apply split_slug; assumption.
Qed.

Lemma Sprinter_parses_every_slug_witness :
  exists me,
    Sprinter "user" "secret" ["org/a"; "org/b"] = inr me /\
    repos me !! 1%nat = Some ["org"; "b"].
Proof.
  destruct (Sprinter_parses_every_slug "user" "secret" ["org/a"; "org/b"])
    as (me & Hme & _ & _ & Hwf).
  exists me. split; [exact Hme|].
  apply (Hwf 1%nat "org" "b"); reflexivity.
Defined.

(** C5, as stated, fails: a slug without separator is accepted. *)
Lemma Sprinter_accepts_malformed_slug :
  Js.includes "/" "abc" = false /\
  Sprinter "user" "secret" ["abc"] =
    inr {| username := "user"; password := "secret"; repos := [["abc"]] |} /\
  (forall x, Sprinter "user" "secret" ["abc"] <> inl x).
Proof. repeat split. intros x H. discriminate H. Qed.

(** ** Sorting *)

Section SortByFacts.
Context {A : Type} (criteria : A -> Z).

Local Abbreviation insert_sorted := (Underscore.insert_sorted criteria).
Local Abbreviation sortBy := (Underscore.sortBy criteria).

Lemma insert_sorted_Permutation x l : insert_sorted x l ≡ₚ x :: l.
Proof.
  induction l as [|y l IH]; simpl; [reflexivity|].
  destruct (criteria x <=? criteria y)%Z; [reflexivity|].
  rewrite IH. apply perm_swap.
Qed.

Lemma sortBy_Permutation l : sortBy l ≡ₚ l.
Proof.
  induction l as [|x l IH]; simpl; [reflexivity|].
  rewrite insert_sorted_Permutation, IH. reflexivity.
Qed.

Lemma insert_sorted_ascending x l :
  StronglySorted (ascending criteria) l -> StronglySorted (ascending criteria) (insert_sorted x l).
Proof.
  induction l as [|y l IH]; simpl; intros Hs.
  - repeat constructor.
  - apply StronglySorted_cons in Hs as [Hy Hl].
    destruct (Z.leb_spec (criteria x) (criteria y)) as [Hle|Hgt].
    + apply StronglySorted_cons. split.
      * constructor; [exact Hle|].
        eapply Forall_impl; [exact Hy|].
        unfold ascending. intros z Hz. lia.
      * apply StronglySorted_cons. split; assumption.
    + apply StronglySorted_cons. split; [|apply IH; exact Hl].
      rewrite insert_sorted_Permutation.
      constructor; [unfold ascending; lia|exact Hy].
Qed.

Lemma sortBy_ascending l : StronglySorted (ascending criteria) (sortBy l).
Proof.
  induction l as [|x l IH]; simpl; [constructor|].
  apply insert_sorted_ascending, IH.
Qed.

(** Stability: the items of one criteria value keep their order. *)
Lemma insert_sorted_filter t x l :
  filter (fun a => criteria a = t) (insert_sorted x l) =
  filter (fun a => criteria a = t) (x :: l).
Proof.
  induction l as [|y l IH]; simpl; [reflexivity|].
  destruct (Z.leb_spec (criteria x) (criteria y)) as [Hle|Hgt]; [reflexivity|].
  rewrite (filter_cons _ y), IH, !(filter_cons _ x), (filter_cons _ y).
  destruct (decide (criteria x = t)), (decide (criteria y = t)); try reflexivity.
  lia.
Qed.

Lemma sortBy_stable t l :
  filter (fun a => criteria a = t) (sortBy l) = filter (fun a => criteria a = t) l.
Proof.
  induction l as [|x l IH]; simpl; [reflexivity|].
  rewrite insert_sorted_filter, !(filter_cons _ x), IH. reflexivity.
Qed.

Lemma reverse_descending l :
  StronglySorted (ascending criteria) l -> StronglySorted (descending criteria) (reverse l).
Proof.
  induction l as [|x l IH]; intros Hs; [constructor|].
  apply StronglySorted_cons in Hs as [Hx Hl].
  rewrite reverse_cons. apply StronglySorted_app_2.
  - intros a b Ha Hb. apply list_elem_of_singleton in Hb as ->.
    rewrite elem_of_reverse in Ha.
    rewrite Forall_forall in Hx. apply (Hx a Ha).
  - apply IH, Hl.
  - repeat constructor.
Qed.

End SortByFacts.

Lemma sortIssues_Permutation issues : sortIssues issues ≡ₚ issues.
Proof.
  unfold sortIssues. rewrite reverse_Permutation. apply sortBy_Permutation.
Qed.

Lemma sortIssues_length issues : length (sortIssues issues) = length issues.
Proof. apply Permutation_length, sortIssues_Permutation. Qed.

Lemma sortIssues_descending issues :
  StronglySorted (descending updated_at) (sortIssues issues).
Proof. unfold sortIssues. apply reverse_descending, sortBy_ascending. Qed.

(** Among the issues of one update time, [sortIssues] reverses the order. *)
Lemma sortIssues_reverses_ties t issues :
  filter (fun i => updated_at i = t) (sortIssues issues) =
  reverse (filter (fun i => updated_at i = t) issues).
Proof.
  unfold sortIssues. rewrite filter_reverse.
  rewrite (sortBy_stable updated_at). reflexivity.
Qed.

(** ** async.parallel *)

Lemma Async_dispatch_cons {T} (t : M (Async.handled T)) (ts : list (M (Async.handled T))) w :
  Async.dispatch (t :: ts) w =
  (let (h, w1) := t w in
   let (hs, w2) := Async.dispatch ts w1 in (h :: hs, w2)).
Proof. reflexivity. Qed.

Lemma Async_dispatch_length {T} (tasks : list (M (Async.handled T))) w :
  length (fst (Async.dispatch tasks w)) = length tasks.
Proof.
  revert w. induction tasks as [|t ts IH]; intros w; [reflexivity|].
  rewrite Async_dispatch_cons.
  destruct (t w) as [h w1]. specialize (IH w1).
  destruct (Async.dispatch ts w1) as [hs w2]. simpl in *. congruence.
Qed.

Lemma Async_parallel_settled {T} (tasks : list (M (Async.handled T))) sched w :
  Async.parallel tasks sched w =
  (settled (fst (Async.dispatch tasks w)) sched, snd (Async.dispatch tasks w)).
Proof.
  pose proof (Async_dispatch_length tasks w) as Hlen.
  destruct tasks as [|t ts]; [reflexivity|].
  unfold Async.parallel, bind, ret.
  destruct (Async.dispatch (t :: ts) w) as [pending w'].
  cbn [fst snd] in *. destruct pending as [|h hs]; [discriminate|].
  unfold settled. rewrite Hlen. reflexivity.
Qed.

(** *** Arrays assigned by index *)

Lemma set_index_length {A} i (v : option A) arr :
  length (Js.set_index i v arr) = length arr `max` S i.
Proof.
  unfold Js.set_index. destruct (decide (i < length arr)).
  - rewrite length_insert. lia.
  - rewrite !length_app, length_replicate. simpl. lia.
Qed.

Lemma set_index_index {A} i (v : option A) arr j :
  Js.index (Js.set_index i v arr) j = if decide (j = i) then v else Js.index arr j.
Proof.
  unfold Js.set_index, Js.index. destruct (decide (i < length arr)) as [Hlt|Hge].
  - destruct (decide (j = i)) as [->|Hne].
    + rewrite list_lookup_insert_eq by exact Hlt. reflexivity.
    + rewrite list_lookup_insert_ne by congruence. reflexivity.
  - destruct (decide (j < length arr)) as [Hj|Hj].
    + rewrite lookup_app_l by exact Hj.
      rewrite decide_False by lia. reflexivity.
    + rewrite lookup_app_r by lia.
      rewrite (lookup_ge_None_2 arr) by lia.
      destruct (decide (j = i)) as [->|Hne].
      * rewrite lookup_app_r by (rewrite length_replicate; lia).
        rewrite length_replicate, Nat.sub_diag. reflexivity.
      * destruct (decide (j - length arr < i - length arr)) as [Hin|Hout].
        -- rewrite lookup_app_l by (rewrite length_replicate; exact Hin).
           rewrite lookup_replicate_2 by exact Hin. reflexivity.
        -- rewrite lookup_app_r by (rewrite length_replicate; lia).
           rewrite length_replicate.
           rewrite lookup_ge_None_2 by (simpl; lia). reflexivity.
Qed.

(** Two arrays of one length that read the same at every index are equal. *)
Lemma array_eq {A} (a b : list (option A)) :
  length a = length b -> (forall j, Js.index a j = Js.index b j) -> a = b.
Proof.
  intros Hlen Hread. apply list_eq. intros j. specialize (Hread j).
  unfold Js.index in Hread.
  destruct (a !! j) as [x|] eqn:Ha, (b !! j) as [y|] eqn:Hb; simpl in Hread.
  - congruence.
  - apply lookup_lt_Some in Ha. apply lookup_ge_None in Hb. lia.
  - apply lookup_lt_Some in Hb. apply lookup_ge_None in Ha. lia.
  - reflexivity.
Qed.

Section Stored.
Context {A : Type} (f : nat -> option A).
Implicit Types (results : list (option A)) (sched : list nat).

Local Abbreviation stored := (fun results (i : nat) => Js.set_index i (f i) results).

(** After a run of assignments the array reaches one past the largest index
    assigned. *)
Lemma stored_length sched results :
  length (foldl stored results sched) = length results `max` max_list (S <$> sched).
Proof.
  revert results. induction sched as [|i sched IH]; intros results; [simpl; lia|].
  rewrite fmap_cons. cbn [foldl max_list_with]. rewrite IH, set_index_length.
  unfold id. lia.
Qed.

Lemma stored_index_in sched results j :
  j ∈ sched -> Js.index (foldl stored results sched) j = f j.
Proof.
  induction sched as [|i sched IH] using rev_ind; intros Hin; [inversion Hin|].
  rewrite foldl_app. simpl. rewrite set_index_index.
  destruct (decide (j = i)) as [->|Hne]; [reflexivity|].
  apply IH. apply elem_of_app in Hin as [Hin|Hin]; [exact Hin|].
  apply list_elem_of_singleton in Hin. contradiction.
Qed.

Lemma stored_index_out sched results j :
  j ∉ sched -> Js.index (foldl stored results sched) j = Js.index results j.
Proof.
  induction sched as [|i sched IH] using rev_ind; intros Hout; [reflexivity|].
  rewrite foldl_app. simpl. rewrite set_index_index.
  apply not_elem_of_app in Hout as [Hs Hi].
  rewrite decide_False; [apply IH; exact Hs|].
  intros ->. apply Hi. left.
Qed.

End Stored.

Lemma max_list_succ_seq n : max_list (S <$> seq 0 n) = n.
Proof.
  induction n as [|n IH]; [reflexivity|].
  rewrite seq_S, fmap_app, Permutation_app_comm. simpl. rewrite IH. unfold id. lia.
Qed.

Section Deliver.
Context {T : Type}.
Implicit Types (vs : list T) (results : list (option T)) (sched : list nat).

Local Abbreviation done_all vs := ((fun v : T => Async.Done (inr v)) <$> vs).
Local Abbreviation fill vs := (fun results (i : nat) => Js.set_index i (vs !! i) results).

(** With every reply a success, the results are complete and in task
    order once the schedule has gone through all tasks. *)
Lemma fill_all vs sched :
  sched ≡ₚ seq 0 (length vs) ->
  foldl (fill vs) [] sched = Some <$> vs.
Proof.
  intros Hperm. apply array_eq.
  - rewrite (stored_length (fun i => vs !! i)), Hperm, max_list_succ_seq, length_fmap.
    simpl. lia.
  - intros j. destruct (decide (j < length vs)) as [Hlt|Hge].
    + rewrite (stored_index_in (fun i => vs !! i)).
      * unfold Js.index. rewrite list_lookup_fmap.
        destruct (vs !! j); reflexivity.
      * rewrite Hperm. apply elem_of_seq. lia.
    + rewrite (stored_index_out (fun i => vs !! i)).
      * unfold Js.index. rewrite list_lookup_fmap.
        rewrite (lookup_ge_None_2 vs) by lia. reflexivity.
      * rewrite Hperm. intros Hin. apply elem_of_seq in Hin. lia.
Qed.

Lemma deliver_all_done n vs sched results completed :
  sched <> [] ->
  (forall i, i ∈ sched -> i < length vs) ->
  completed + length sched = n ->
  Async.deliver n (done_all vs) sched results completed =
  Called None (Some (foldl (fill vs) results sched)).
Proof.
  revert results completed.
  induction sched as [|i sched IH]; intros results completed Hne Hlt Hn;
    [congruence|].
  simpl. rewrite list_lookup_fmap.
  destruct (lookup_lt_is_Some_2 vs i) as [v Hv];
    [apply Hlt; left|].
  rewrite Hv. simpl.
  destruct sched as [|i' sched].
  - simpl in Hn. rewrite decide_True by lia. reflexivity.
  - simpl in Hn. rewrite decide_False by lia.
    apply IH; [discriminate| |simpl; lia].
    intros j Hj. apply Hlt. right. exact Hj.
Qed.

(** The first error to arrive is the one the final callback receives. *)
Lemma deliver_first_error n (pending : list (Async.handled T)) s1 s2 k err :
  pending !! k = Some (Async.Done (inl err)) ->
  (forall i, i ∈ s1 -> exists v, pending !! i = Some (Async.Done (inr v))) ->
  forall results completed,
    completed + length s1 < n ->
    exists partial,
      Async.deliver n pending (s1 ++ k :: s2) results completed =
      Called (Some err) (Some partial).
Proof.
  intros Hk. induction s1 as [|i s1 IH]; intros Hok results completed Hlt.
  - simpl. rewrite Hk. eauto.
  - simpl. destruct (Hok i) as [v Hv]; [left|]. rewrite Hv.
    simpl in Hlt. rewrite decide_False by lia.
    apply IH; [|lia]. intros j Hj. apply Hok. right. exact Hj.
Qed.

Lemma deliver_single_error (pending : list (Async.handled T)) sched k err :
  sched ≡ₚ seq 0 (length pending) ->
  pending !! k = Some (Async.Done (inl err)) ->
  (forall i h, i <> k -> pending !! i = Some h -> exists v, h = Async.Done (inr v)) ->
  exists partial,
    Async.deliver (length pending) pending sched [] 0 =
    Called (Some err) (Some partial).
Proof.
  intros Hperm Hk Hok.
  assert (Hin : k ∈ sched).
  { rewrite Hperm. apply elem_of_seq. apply lookup_lt_Some in Hk. lia. }
  destruct (list_elem_of_split _ _ Hin) as (s1 & s2 & ->).
  assert (Hnd : NoDup (s1 ++ k :: s2)).
  { rewrite Hperm. apply NoDup_seq. }
  apply NoDup_app in Hnd as (_ & Hdisj & _).
  apply deliver_first_error; [exact Hk| |].
  - intros i Hi.
    assert (Hik : i <> k).
    { intros ->. apply (Hdisj k Hi). left. }
    assert (Hlt : i < length pending).
    { assert (Hi' : i ∈ seq 0 (length pending)).
      { rewrite <- Hperm. apply elem_of_app. left. exact Hi. }
      apply elem_of_seq in Hi'. lia. }
    destruct (lookup_lt_is_Some_2 pending i Hlt) as [h Hh].
    destruct (Hok i h Hik Hh) as [v ->]. eauto.
  - apply Permutation_length in Hperm.
    rewrite length_app, length_seq in Hperm. simpl in Hperm. lia.
Qed.

Lemma settled_all_done vs sched :
  sched ≡ₚ seq 0 (length vs) ->
  settled (done_all vs) sched = Called None (Some (Some <$> vs)).
Proof.
  intros Hperm. destruct vs as [|v vs']; [reflexivity|].
  set (vs := v :: vs') in *.
  change (settled (done_all vs) sched)
    with (Async.deliver (length (done_all vs)) (done_all vs) sched [] 0).
  rewrite length_fmap, deliver_all_done.
  - rewrite fill_all by exact Hperm. reflexivity.
  - intros ->. apply Permutation_nil_l in Hperm. discriminate.
  - intros i Hi. rewrite Hperm in Hi. apply elem_of_seq in Hi. lia.
  - apply Permutation_length in Hperm. rewrite length_seq in Hperm. lia.
Qed.

Lemma settled_single_error (pending : list (Async.handled T)) sched k err :
  sched ≡ₚ seq 0 (length pending) ->
  pending !! k = Some (Async.Done (inl err)) ->
  (forall i h, i <> k -> pending !! i = Some h -> exists v, h = Async.Done (inr v)) ->
  exists partial, settled pending sched = Called (Some err) (Some partial).
Proof.
  intros Hperm Hk Hok.
  destruct pending as [|h hs]; [discriminate|].
  apply (deliver_single_error (h :: hs) sched k err Hperm Hk Hok).
Qed.

End Deliver.

(** ** The fan-out of getIssues *)

Section GetIssues.
Context (gh : github).

Local Abbreviation issue_handler repoSlug :=
  (fun reply : error + list Issue =>
     match reply with
     | inl err => Async.Done (inl (set_err_repo (repo_tag repoSlug) err))
     | inr issues => Async.Done (inr (set_issue_repo (repo_tag repoSlug) <$> issues))
     end).

Local Abbreviation issue_task filters :=
  (fun repoSlug : list string =>
     localFilters <- extend_at filters
                       (repo_fields (repoSlug !! 0%nat) (repoSlug !! 1%nat)) ;;
     reply <- request RepoIssues (repoIssues gh) localFilters ;;
     ret (match reply with
          | inl err =>
              Async.Done
                (inl (set_err_repo (slug_of (repoSlug !! 0%nat) (repoSlug !! 1%nat)) err))
          | inr issues =>
              Async.Done
                (inr (map (set_issue_repo (slug_of (repoSlug !! 0%nat) (repoSlug !! 1%nat)))
                        issues))
          end)).

Lemma repo_fields_lookup_other org repo k :
  k <> "user" -> k <> "repo" -> repo_fields org repo !! k = None.
Proof.
  intros Hu Hr. unfold repo_fields.
  rewrite lookup_insert_ne by congruence.
  rewrite lookup_singleton_ne by congruence. reflexivity.
Qed.

Lemma repo_fields_lookup_user org repo :
  repo_fields org repo !! "user" = Some (Js.of_string org).
Proof. reflexivity. Qed.

Lemma repo_fields_lookup_repo org repo :
  repo_fields org repo !! "repo" = Some (Js.of_string repo).
Proof. reflexivity. Qed.

Lemma extend_repo_fields cur base org repo :
  same_filters cur base ->
  Underscore.extend cur (repo_fields org repo) =
  Underscore.extend base (repo_fields org repo).
Proof.
  intros Hsame. apply map_eq. intros k. unfold Underscore.extend.
  rewrite !lookup_union.
  destruct (decide (k = "user")) as [->|Hu];
    [rewrite repo_fields_lookup_user, !union_Some_l; reflexivity|].
  destruct (decide (k = "repo")) as [->|Hr];
    [rewrite repo_fields_lookup_repo, !union_Some_l; reflexivity|].
  rewrite repo_fields_lookup_other by assumption.
  rewrite (Hsame k) by assumption. reflexivity.
Qed.

Lemma same_filters_extend base org repo :
  same_filters (Underscore.extend base (repo_fields org repo)) base.
Proof.
  intros k Hu Hr. unfold Underscore.extend.
  rewrite lookup_union, repo_fields_lookup_other by assumption.
  apply (left_id None union).
Qed.

Local Abbreviation issue_call filters base :=
  (fun repoSlug : list string =>
     {| call_op := RepoIssues;
        call_payload := filters;
        call_seen :=
          Underscore.extend base (repo_fields (repoSlug !! 0%nat) (repoSlug !! 1%nat)) |}).

Lemma issue_task_run filters base r w cur :
  heap w !! filters = Some cur ->
  same_filters cur base ->
  issue_task filters r w =
    (issue_handler r
       (repoIssues gh (length (calls w))
          (Underscore.extend base (repo_fields (r !! 0%nat) (r !! 1%nat)))),
     {| heap := <[filters :=
                    Underscore.extend base (repo_fields (r !! 0%nat) (r !! 1%nat))]>
                  (heap w);
        calls := calls w ++ [issue_call filters base r] |}).
Proof.
  intros Hcur Hsame.
  assert (Hlt : filters < length (heap w)) by (eapply lookup_lt_Some; eauto).
  unfold bind, extend_at, request, ret. simpl.
  rewrite Hcur. simpl. rewrite list_lookup_insert_eq by exact Hlt. simpl.
  rewrite (extend_repo_fields cur base) by exact Hsame.
  reflexivity.
Qed.

Lemma step_lookup filters base (r : list string) w :
  filters < length (heap w) ->
  heap {| heap := <[filters :=
                      Underscore.extend base (repo_fields (r !! 0%nat) (r !! 1%nat))]>
                    (heap w);
          calls := calls w ++ [issue_call filters base r] |} !! filters =
  Some (Underscore.extend base (repo_fields (r !! 0%nat) (r !! 1%nat))).
Proof. intros Hlt. simpl. apply list_lookup_insert_eq. exact Hlt. Qed.

(** Starting the tasks: every task overwrites [user] and [repo] in the one
    object at [filters] and passes that object to the client. *)
Lemma dispatch_issue_tasks filters base rs : forall w cur,
  heap w !! filters = Some cur ->
  same_filters cur base ->
  exists hp,
    Async.dispatch (map (issue_task filters) rs) w =
      (imap (fun i r =>
               issue_handler r
                 (repoIssues gh (length (calls w) + i)
                    (Underscore.extend base (repo_fields (r !! 0%nat) (r !! 1%nat)))))
            rs,
       {| heap := hp; calls := calls w ++ map (issue_call filters base) rs |}) /\
    length hp = length (heap w) /\
    (forall l, l <> filters -> hp !! l = heap w !! l) /\
    hp !! filters =
      Some (from_option
              (fun r => Underscore.extend base (repo_fields (r !! 0%nat) (r !! 1%nat)))
              cur (last rs)).
Proof.
  induction rs as [|r rs IH]; intros w cur Hcur Hsame.
  - exists (heap w). simpl. unfold ret. rewrite app_nil_r.
    destruct w; simpl in *. auto.
  - assert (Hlt : filters < length (heap w)) by (eapply lookup_lt_Some; eauto).
    pose proof (issue_task_run filters base r w cur Hcur Hsame) as Hstep.
    destruct (IH _ _ (step_lookup filters base r w Hlt)
                (same_filters_extend base (r !! 0%nat) (r !! 1%nat)))
      as (hp & Hrun & Hlen & Hother & Hat).
    exists hp. split; [|split; [|split]].
    + change (map (issue_task filters) (r :: rs))
        with (issue_task filters r :: map (issue_task filters) rs).
      rewrite Async_dispatch_cons, Hstep, Hrun. f_equal.
      * rewrite imap_cons. f_equal.
        -- rewrite Nat.add_0_r. reflexivity.
        -- apply imap_ext. intros i x _. simpl.
           rewrite length_app. simpl.
           replace (length (calls w) + 1 + i) with (length (calls w) + S i) by lia.
           reflexivity.
      * simpl. rewrite <- app_assoc. reflexivity.
    + rewrite Hlen. simpl. apply length_insert.
    + intros l Hl. rewrite (Hother l Hl). simpl.
      apply list_lookup_insert_ne. congruence.
    + rewrite Hat, last_cons. destruct (last rs); reflexivity.
Qed.

(** One [getIssues] call: what it reports, the requests it logs, and what
    it leaves in the heap. *)
Lemma getIssues_run me sched userFilters w :
  let overrides := caller_filters userFilters w in
  let filters := filters_address userFilters w in
  exists hp,
    getIssues me gh sched userFilters w =
      (issues_outcome
         (settled
            (imap (fun i r =>
                     issue_handler r
                       (repoIssues gh (length (calls w) + i) (issue_filters overrides r)))
                  (repos me))
            sched),
       {| heap := hp;
          calls := calls w ++ map (issue_call filters (merged_filters overrides))
                                (repos me) |}) /\
    length hp = S filters /\
    (forall l, l < length (heap w) -> hp !! l = heap w !! l) /\
    hp !! filters =
      Some (from_option (issue_filters overrides) (merged_filters overrides)
              (last (repos me))).
Proof.
  intros overrides filters.
  unfold getIssues, _eachRepoFlattened, _eachRepo.
  assert (Hmerged : forall o (hp0 : list (gmap string value)),
             <[length hp0 := Underscore.extend {["state" := VStr "open"]} o]>
               (hp0 ++ [{["state" := VStr "open"]}]) !! length hp0 =
             Some (merged_filters o)).
  { intros o hp0. apply list_lookup_insert_eq. rewrite length_app. simpl. lia. }
  destruct userFilters as [l|].
  - unfold bind at 1. unfold ret at 1. cbv beta iota.
    unfold bind at 1. unfold read at 1. cbv beta iota.
    unfold bind at 1. unfold alloc at 1. cbv beta iota.
    unfold bind at 1. unfold extend_at at 1. cbv beta iota.
    cbn [heap calls]. rewrite lookup_app_r by lia.
    rewrite Nat.sub_diag. cbn [lookup list_lookup default from_option].
    unfold bind at 1. unfold bind at 1. rewrite Async_parallel_settled.
    match goal with
    | |- context [Async.dispatch ?ts ?W] =>
        destruct (dispatch_issue_tasks (length (heap w)) (merged_filters overrides)
                    (repos me) W (merged_filters overrides))
          as (hp & Hrun & Hlen & Hother & Hat);
        [exact (Hmerged overrides (heap w)) | intros k _ _; reflexivity |];
        change (Async.dispatch ts W)
          with (Async.dispatch (map (issue_task (length (heap w))) (repos me)) W)
    end.
    rewrite Hrun. cbn [fst snd calls heap] in *. unfold ret.
    exists hp. split; [|split; [|split]].
    + f_equal. unfold issues_outcome, issue_filters.
      match goal with
      | |- context [settled ?P sched] => destruct (settled P sched) as [[err|] data| |]
      end; reflexivity.
    + rewrite Hlen, length_insert, length_app. simpl. unfold filters. simpl. lia.
    + intros l0 Hl0. rewrite Hother by (unfold filters; simpl; lia).
      rewrite list_lookup_insert_ne by lia.
      apply lookup_app_l. exact Hl0.
    + exact Hat.
  - unfold bind at 1. unfold alloc at 1. cbv beta iota.
    unfold bind at 1. unfold read at 1. cbv beta iota.
    unfold bind at 1. unfold alloc at 1. cbv beta iota.
    unfold bind at 1. unfold extend_at at 1. cbv beta iota.
    cbn [heap calls].
    rewrite (lookup_app_r (heap w ++ [∅]) _ (length (heap w ++ [∅]))) by lia.
    rewrite Nat.sub_diag.
    rewrite (lookup_app_r (heap w) _ (length (heap w))) by lia.
    rewrite Nat.sub_diag. cbn [lookup list_lookup default from_option].
    unfold bind at 1. unfold bind at 1. rewrite Async_parallel_settled.
    match goal with
    | |- context [Async.dispatch ?ts ?W] =>
        destruct (dispatch_issue_tasks (length (heap w ++ [∅])) (merged_filters overrides)
                    (repos me) W (merged_filters overrides))
          as (hp & Hrun & Hlen & Hother & Hat);
        [exact (Hmerged overrides (heap w ++ [∅])) | intros k _ _; reflexivity |];
        change (Async.dispatch ts W)
          with (Async.dispatch (map (issue_task (length (heap w ++ [∅]))) (repos me)) W)
    end.
    rewrite Hrun. cbn [fst snd calls heap] in *. unfold ret.
    assert (Hf : length (heap w ++ [∅ : gmap string value]) = filters).
    { rewrite length_app. unfold filters. simpl. lia. }
    rewrite Hf in *.
    exists hp. split; [|split; [|split]].
    + f_equal. unfold issues_outcome, issue_filters.
      match goal with
      | |- context [settled ?P sched] => destruct (settled P sched) as [[err|] data| |]
      end; reflexivity.
    + rewrite Hlen, length_insert, !length_app. simpl. unfold filters. simpl. lia.
    + intros l0 Hl0. rewrite Hother by (unfold filters; simpl; lia).
      rewrite list_lookup_insert_ne by (unfold filters; simpl; lia).
      rewrite lookup_app_l by (rewrite length_app; simpl; lia).
      apply lookup_app_l. exact Hl0.
    + exact Hat.
Qed.

Local Abbreviation issue_pending me userFilters w :=
  (imap (fun i r =>
           issue_handler r
             (repoIssues gh (length (calls w) + i)
                (issue_filters (caller_filters userFilters w) r)))
        (repos me)).

Lemma getIssues_outcome me sched userFilters w :
  fst (getIssues me gh sched userFilters w) =
  issues_outcome (settled (issue_pending me userFilters w) sched).
Proof.
  destruct (getIssues_run me sched userFilters w) as (hp & -> & _). reflexivity.
Qed.

(** The requests of one call, in branch order: all carry the address of
    the one [filters] object; each read its own repo's fields from it. *)
Lemma getIssues_requests me sched userFilters w :
  requests_since w (snd (getIssues me gh sched userFilters w)) =
  map (issue_call (filters_address userFilters w)
         (merged_filters (caller_filters userFilters w)))
      (repos me).
Proof.
  destruct (getIssues_run me sched userFilters w) as (hp & -> & _).
  unfold requests_since. simpl. apply drop_app_length.
Qed.

Lemma issue_pending_lookup me userFilters w i :
  issue_pending me userFilters w !! i =
  (fun r => issue_handler r
              (repoIssues gh (length (calls w) + i)
                 (issue_filters (caller_filters userFilters w) r)))
    <$> repos me !! i.
Proof. apply list_lookup_imap. Qed.

Lemma issue_replies_lookup me userFilters w i :
  issue_replies me gh userFilters w !! i =
  (fun r => repoIssues gh (length (calls w) + i)
              (issue_filters (caller_filters userFilters w) r))
    <$> repos me !! i.
Proof. apply list_lookup_imap. Qed.

(** When every reply is a success, the pending replies are the tagged
    per-repo results. *)
Lemma issue_pending_all_done me userFilters w (results : list (list Issue)) :
  issue_replies me gh userFilters w = inr <$> results ->
  issue_pending me userFilters w =
  (fun v => Async.Done (inr v))
    <$> zip_with (fun r issues => set_issue_repo (repo_tag r) <$> issues)
          (repos me) results.
Proof.
  intros Hreplies. apply list_eq. intros i.
  assert (Hi := f_equal (fun l => l !! i) Hreplies). simpl in Hi.
  rewrite issue_replies_lookup, list_lookup_fmap in Hi.
  rewrite issue_pending_lookup, list_lookup_fmap, lookup_zip_with.
  destruct (repos me !! i) as [r|], (results !! i) as [issues|];
    simpl in *; try discriminate; [|reflexivity].
  injection Hi as ->. reflexivity.
Qed.

Lemma getIssues_success me sched userFilters w (results : list (list Issue)) :
  sched ≡ₚ seq 0 (length (repos me)) ->
  issue_replies me gh userFilters w = inr <$> results ->
  fst (getIssues me gh sched userFilters w) =
  Called None (Some (sortIssues (tagged_issues me results))).
Proof.
  intros Hperm Hreplies.
  assert (Hlen : length results = length (repos me)).
  { apply (f_equal length) in Hreplies.
    unfold issue_replies in Hreplies.
    rewrite length_imap, length_fmap in Hreplies. lia. }
  rewrite getIssues_outcome, (issue_pending_all_done _ _ _ _ Hreplies).
  unfold tagged_issues.
  set (vs := zip_with _ (repos me) results).
  assert (Hvs : length vs = length (repos me)).
  { unfold vs. rewrite length_zip_with. lia. }
  rewrite settled_all_done by (rewrite Hvs; exact Hperm).
  unfold issues_outcome, Underscore.flatten. simpl default.
  do 3 f_equal. change (map ?f ?l) with (f <$> l).
  rewrite <- list_fmap_compose.
  rewrite (list_fmap_ext _ id vs) by reflexivity.
  rewrite list_fmap_id. reflexivity.
Qed.

End GetIssues.

(** What a request reads from its message, field by field. *)
Lemma issue_filters_lookup overrides repoSlug k :
  k <> "user" -> k <> "repo" ->
  issue_filters overrides repoSlug !! k =
  match overrides !! k with
  | Some v => Some v
  | None => if decide (k = "state") then Some (VStr "open") else None
  end.
Proof.
  intros Hu Hr. unfold issue_filters, merged_filters, Underscore.extend.
  rewrite lookup_union, repo_fields_lookup_other by assumption.
  rewrite (left_id None union), lookup_union.
  destruct (overrides !! k) as [v|]; [apply union_Some_l|].
  rewrite (left_id None union).
  destruct (decide (k = "state")) as [->|Hs]; [reflexivity|].
  apply lookup_singleton_ne. congruence.
Qed.

Lemma issue_filters_lookup_user overrides repoSlug :
  issue_filters overrides repoSlug !! "user" = Some (Js.of_string (repoSlug !! 0%nat)).
Proof.
  unfold issue_filters, Underscore.extend.
  rewrite lookup_union, repo_fields_lookup_user. apply union_Some_l.
Qed.

Lemma issue_filters_lookup_repo overrides repoSlug :
  issue_filters overrides repoSlug !! "repo" = Some (Js.of_string (repoSlug !! 1%nat)).
Proof.
  unfold issue_filters, Underscore.extend.
  rewrite lookup_union, repo_fields_lookup_repo. apply union_Some_l.
Qed.

(** The entries parsed from well-formed slugs are the pairs. *)
Lemma convertSlugsToObjects_names (names : list (string * string)) :
  Forall (fun name => Js.includes "/" name.1 = false /\ Js.includes "/" name.2 = false)
    names ->
  convertSlugsToObjects ((fun name => name.1 +:+ "/" +:+ name.2) <$> names) =
  (fun name => [name.1; name.2]) <$> names.
Proof.
  intros Hwf. unfold convertSlugsToObjects.
  change (map ?f ?l) with (f <$> l). rewrite <- list_fmap_compose.
  apply Forall_fmap_ext_1. eapply Forall_impl; [exact Hwf|].
  intros [org repo] [Ho Hr]. simpl in *. apply split_slug; assumption.
Qed.

(** ** getIssues: the claims *)

(** C1, at the code: the branches of one [getIssues] call do not get a copy
    each.  Every request is handed the same object, the one at the address of
    [filters], and after the call that object holds the fields of the last
    configured repo, whichever branch it was handed to. *)
Theorem getIssues_shares_filters me gh sched userFilters w :
  let w' := snd (getIssues me gh sched userFilters w) in
  let filters := filters_address userFilters w in
  length (requests_since w w') = length (repos me) /\
  Forall (fun c => call_op c = RepoIssues /\ call_payload c = filters)
    (requests_since w w') /\
  (forall repoSlug, last (repos me) = Some repoSlug ->
     heap w' !! filters =
     Some (issue_filters (caller_filters userFilters w) repoSlug)).
Proof.
  intros w' filters. subst w'.
  rewrite getIssues_requests.
  split; [apply length_map|]. split.
  - apply Forall_forall. intros c Hc.
    apply list_elem_of_In, in_map_iff in Hc as (r & <- & _). split; reflexivity.
  - intros repoSlug Hlast.
    destruct (getIssues_run gh me sched userFilters w) as (hp & -> & _ & _ & Hat).
    simpl. fold filters in Hat. rewrite Hat, Hlast. reflexivity.
Qed.

(** C1 on [a/x], [b/y]: both requests carry address 1, and the object there
    ends with [user = b], [repo = y]; the request for [a/x] read [user = a]
    from it when it was issued. *)
Lemma shared_filters_on_sample :
  let w' := snd (getIssues sample_me (sample_gh false false false) [1; 0]%nat
                   (Some 0%nat) sample_world) in
  call_payload <$> calls w' = [1; 1]%nat /\
  (call_seen <$> calls w') !! 0%nat ≫= (.!! "user") = Some (VStr "a") /\
  heap w' !! 1%nat ≫= (.!! "user") = Some (VStr "b") /\
  heap w' !! 1%nat ≫= (.!! "repo") = Some (VStr "y").
Proof. vm_compute. repeat split. Qed.

(** C2: when exactly one [repoIssues] request fails, the callback receives
    that error, with the slug of the failing repo attached, and no data. *)
Theorem getIssues_single_failure me gh sched userFilters w k repoSlug err :
  sched ≡ₚ seq 0 (length (repos me)) ->
  repos me !! k = Some repoSlug ->
  issue_replies me gh userFilters w !! k = Some (inl err) ->
  (forall i reply, i <> k ->
     issue_replies me gh userFilters w !! i = Some reply ->
     exists issues, reply = inr issues) ->
  fst (getIssues me gh sched userFilters w) =
  Called (Some {| message := message err; err_repo := Some (repo_tag repoSlug) |}) None.
Proof.
  intros Hperm Hrepo Hk Hok.
  rewrite getIssues_outcome.
  rewrite issue_replies_lookup, Hrepo in Hk. simpl in Hk. injection Hk as Hk.
  destruct (settled_single_error
              (imap (fun i r =>
                       match repoIssues gh (length (calls w) + i)
                               (issue_filters (caller_filters userFilters w) r) with
                       | inl e => Async.Done (inl (set_err_repo (repo_tag r) e))
                       | inr issues =>
                           Async.Done (inr (set_issue_repo (repo_tag r) <$> issues))
                       end) (repos me))
              sched k (set_err_repo (repo_tag repoSlug) err)) as [partial Hs].
  - rewrite length_imap. exact Hperm.
  - rewrite list_lookup_imap, Hrepo. simpl. rewrite Hk. reflexivity.
  - intros i h Hi Hh. rewrite list_lookup_imap in Hh.
    destruct (repos me !! i) as [r|] eqn:Hr; [|discriminate].
    simpl in Hh. injection Hh as <-.
    destruct (Hok i (repoIssues gh (length (calls w) + i)
                       (issue_filters (caller_filters userFilters w) r)) Hi)
      as [issues ->].
    + rewrite issue_replies_lookup, Hr. reflexivity.
    + eauto.
  - rewrite Hs. reflexivity.
Qed.

Lemma getIssues_single_failure_witness :
  fst (getIssues sample_me (sample_gh true false false) [0; 1]%nat None sample_world) =
  Called (Some {| message := "boom"; err_repo := Some "b/y" |}) None.
Proof.
  apply (getIssues_single_failure sample_me (sample_gh true false false) [0; 1]%nat
           None sample_world 1%nat ["b"; "y"] boom).
  - reflexivity.
  - reflexivity.
  - reflexivity.
  - intros [|[|i]] reply Hi H; [|congruence|discriminate].
    injection H as <-. eexists. reflexivity.
Defined.

(** C3: the configured repos are given by well-formed slugs [org/repo], and
    the remote answers every request that carries the caller's filters and is
    addressed to one of them (by the [user] and [repo] fields of its message)
    with the issues found in that repo.  The callback then receives as many
    items as the repos hold together; the items are, up to order, the issues
    of the repos, each carrying as [repo] the slug [org/repo] of the repo it
    was found in. *)
Theorem getIssues_all_succeed username password (names : list (string * string)) me gh
    sched userFilters w (found : string -> string -> list Issue) :
  Forall (fun name => Js.includes "/" name.1 = false /\ Js.includes "/" name.2 = false)
    names ->
  Sprinter username password ((fun name => name.1 +:+ "/" +:+ name.2) <$> names) = inr me ->
  sched ≡ₚ seq 0 (length names) ->
  (forall n seen org repo,
     (org, repo) ∈ names ->
     seen !! "user" = Some (VStr org) ->
     seen !! "repo" = Some (VStr repo) ->
     same_filters seen (merged_filters (caller_filters userFilters w)) ->
     repoIssues gh n seen = inr (found org repo)) ->
  exists items,
    fst (getIssues me gh sched userFilters w) = Called None (Some items) /\
    length items = list_sum ((fun name => length (found name.1 name.2)) <$> names) /\
    items ≡ₚ
      concat ((fun name =>
                 set_issue_repo (name.1 +:+ "/" +:+ name.2) <$> found name.1 name.2)
                <$> names) /\
    Forall (fun item => exists org repo issue,
              (org, repo) ∈ names /\
              issue ∈ found org repo /\
              issue_repo item = Some (org +:+ "/" +:+ repo) /\
              issue_number item = issue_number issue /\
              issue_title item = issue_title issue /\
              updated_at item = updated_at issue)
      items.
Proof.
  intros Hwf [= <-] Hperm Hremote.
  pose proof (convertSlugsToObjects_names names Hwf) as Hrepos.
  set (me := {| username := username; password := password;
                repos := convertSlugsToObjects
                           ((fun name => name.1 +:+ "/" +:+ name.2) <$> names) |}).
  change (repos me = (fun name => [name.1; name.2]) <$> names) in Hrepos.
  set (results := (fun name => found name.1 name.2) <$> names).
  assert (Hreplies : issue_replies me gh userFilters w = inr <$> results).
  { unfold issue_replies, results. rewrite Hrepos.
    apply list_eq. intros i.
    rewrite list_lookup_imap, !list_lookup_fmap.
    destruct (names !! i) as [[org repo]|] eqn:Hi; [|reflexivity].
    cbn [fmap option_fmap option_map fst snd]. f_equal.
    apply Hremote.
    - apply list_elem_of_lookup. eauto.
    - apply (issue_filters_lookup_user _ [org; repo]).
    - apply (issue_filters_lookup_repo _ [org; repo]).
    - apply same_filters_extend. }
  assert (Htagged : tagged_issues me results =
                    concat ((fun name =>
                               set_issue_repo (name.1 +:+ "/" +:+ name.2)
                                 <$> found name.1 name.2) <$> names)).
  { unfold tagged_issues, results. rewrite Hrepos.
    rewrite zip_with_fmap_l, zip_with_fmap_r, zip_with_diag. reflexivity. }
  exists (sortIssues (tagged_issues me results)).
  split.
  { apply (getIssues_success gh); [|exact Hreplies].
    rewrite Hrepos, length_fmap. exact Hperm. }
  rewrite Htagged.
  split; [|split; [apply sortIssues_Permutation|]].
  - rewrite sortIssues_length, length_concat. f_equal.
    rewrite <- !list_fmap_compose. apply list_fmap_ext.
    intros i name _. apply length_fmap.
  - apply Forall_forall. intros item Hitem.
    rewrite sortIssues_Permutation in Hitem.
    apply list_elem_of_In, in_concat in Hitem as (tagged & Htag & Hin).
    apply list_elem_of_In, list_elem_of_fmap in Htag as ([org repo] & -> & Hname).
    apply list_elem_of_In, list_elem_of_fmap in Hin as (issue & -> & Hissue).
    exists org, repo, issue. repeat split; assumption.
Qed.

Lemma getIssues_all_succeed_witness :
  exists items,
    fst (getIssues sample_me (sample_gh false false false) [1; 0]%nat (Some 0%nat)
           sample_world) = Called None (Some items) /\
    length items = 4%nat /\
    items ≡ₚ
      [ {| issue_number := 1; issue_title := "bug"; updated_at := 5;
           issue_repo := Some "a/x" |};
        {| issue_number := 2; issue_title := "bug"; updated_at := 5;
           issue_repo := Some "a/x" |};
        {| issue_number := 3; issue_title := "bug"; updated_at := 9;
           issue_repo := Some "b/y" |};
        {| issue_number := 4; issue_title := "bug"; updated_at := 1;
           issue_repo := Some "b/y" |} ].
Proof.
  destruct (getIssues_all_succeed "user" "secret" [("a", "x"); ("b", "y")] sample_me
              (sample_gh false false false) [1; 0]%nat (Some 0%nat) sample_world
              (fun org _ =>
                 if decide (org = "a") then [sample_issue 1 5; sample_issue 2 5]
                 else [sample_issue 3 9; sample_issue 4 1]))
    as (items & Hrun & Hlen & Hitems & _).
  - repeat constructor.
  - reflexivity.
  - apply perm_swap.
  - intros n seen org repo Hin Huser _ _.
    cbn [repoIssues sample_gh]. rewrite Huser.
    apply elem_of_cons in Hin as [[= -> ->]|Hin]; [reflexivity|].
    apply list_elem_of_singleton in Hin as [= -> ->]. reflexivity.
  - exists items. split; [exact Hrun|]. split; [exact Hlen|exact Hitems].
Defined.

(** C3 on the sample: the requests are addressed to [a/x] and [b/y], and
    every issue comes back with the slug of the repo that returned it,
    although the reply of [b/y] arrives first. *)
Lemma getIssues_all_succeed_on_sample :
  let run := getIssues sample_me (sample_gh false false false) [1; 0]%nat (Some 0%nat)
               sample_world in
  call_seen <$> calls (snd run) =
    [ <["user" := VStr "a"]> (<["repo" := VStr "x"]> {["state" := VStr "closed"]});
      <["user" := VStr "b"]> (<["repo" := VStr "y"]> {["state" := VStr "closed"]}) ] /\
  fst run =
    Called None
      (Some [ {| issue_number := 3; issue_title := "bug"; updated_at := 9;
                 issue_repo := Some "b/y" |};
              {| issue_number := 2; issue_title := "bug"; updated_at := 5;
                 issue_repo := Some "a/x" |};
              {| issue_number := 1; issue_title := "bug"; updated_at := 5;
                 issue_repo := Some "a/x" |};
              {| issue_number := 4; issue_title := "bug"; updated_at := 1;
                 issue_repo := Some "b/y" |} ]).
Proof. vm_compute. split; reflexivity. Qed.

(** C4, as the code has it: on success the items are sorted non-increasing
    by [updated_at], and items with the same [updated_at] come out in the
    reverse of their encounter order (repo order, then the order within the
    repo's reply). *)
Theorem getIssues_sorted_ties_reversed me gh sched userFilters w
    (results : list (list Issue)) :
  sched ≡ₚ seq 0 (length (repos me)) ->
  issue_replies me gh userFilters w = inr <$> results ->
  exists items,
    fst (getIssues me gh sched userFilters w) = Called None (Some items) /\
    StronglySorted (fun a b => (updated_at b <= updated_at a)%Z) items /\
    forall t,
      filter (fun i => updated_at i = t) items =
      reverse (filter (fun i => updated_at i = t) (tagged_issues me results)).
Proof.
  intros Hperm Hreplies.
  exists (sortIssues (tagged_issues me results)).
  split; [apply (getIssues_success gh); assumption|].
  split; [apply sortIssues_descending|].
  intros t. apply sortIssues_reverses_ties.
Qed.

Lemma getIssues_sorted_ties_reversed_witness :
  exists items,
    fst (getIssues sample_me (sample_gh false false false) [1; 0]%nat (Some 0%nat)
           sample_world) = Called None (Some items) /\
    StronglySorted (fun a b => (updated_at b <= updated_at a)%Z) items.
Proof.
  destruct (getIssues_sorted_ties_reversed sample_me (sample_gh false false false)
              [1; 0]%nat (Some 0%nat) sample_world
              [[sample_issue 1 5; sample_issue 2 5]; [sample_issue 3 9; sample_issue 4 1]])
    as (items & Hrun & Hsorted & _).
  - apply perm_swap.
  - reflexivity.
  - exists items. split; [exact Hrun | exact Hsorted].
Defined.

(** C4, as stated, fails: issues 1 and 2 of [a/x] have the same update time
    and are met in that order, yet 2 comes out before 1. *)
Lemma getIssues_not_stable :
  tagged_issues sample_me
    [[sample_issue 1 5; sample_issue 2 5]; [sample_issue 3 9; sample_issue 4 1]] =
    [set_issue_repo "a/x" (sample_issue 1 5); set_issue_repo "a/x" (sample_issue 2 5);
     set_issue_repo "b/y" (sample_issue 3 9); set_issue_repo "b/y" (sample_issue 4 1)] /\
  updated_at (sample_issue 1 5) = updated_at (sample_issue 2 5) /\
  fst (getIssues sample_me (sample_gh false false false) [0; 1]%nat (Some 0%nat)
         sample_world) =
  Called None
    (Some [set_issue_repo "b/y" (sample_issue 3 9); set_issue_repo "a/x" (sample_issue 2 5);
           set_issue_repo "a/x" (sample_issue 1 5); set_issue_repo "b/y" (sample_issue 4 1)]).
Proof. vm_compute. repeat split. Qed.

(** C10: a [getIssues] call leaves the caller's filter object as it was, and
    with it every object that existed before the call. *)
Theorem getIssues_keeps_caller_filters me gh sched w l o :
  heap w !! l = Some o ->
  let w' := snd (getIssues me gh sched (Some l) w) in
  heap w' !! l = Some o /\
  filters_address (Some l) w <> l /\
  Forall (fun c => call_payload c <> l) (requests_since w w') /\
  (forall l' o', heap w !! l' = Some o' -> heap w' !! l' = Some o').
Proof.
  intros Hl w'. subst w'.
  assert (Hlt : l < length (heap w)) by (eapply lookup_lt_Some; exact Hl).
  rewrite getIssues_requests.
  destruct (getIssues_run gh me sched (Some l) w) as (hp & -> & _ & Hkeep & _).
  simpl. split; [rewrite Hkeep; assumption|].
  split; [lia|]. split.
  - apply Forall_forall. intros c Hc.
    apply list_elem_of_In, in_map_iff in Hc as (r & <- & _). simpl. lia.
  - intros l' o' Hl'. rewrite Hkeep; [exact Hl'|].
    eapply lookup_lt_Some. exact Hl'.
Qed.

Lemma getIssues_keeps_caller_filters_witness :
  heap (snd (getIssues sample_me (sample_gh false false false) [1; 0]%nat (Some 0%nat)
               sample_world)) !! 0%nat =
  Some {["state" := VStr "closed"]}.
Proof.
  destruct (getIssues_keeps_caller_filters sample_me (sample_gh false false false)
              [1; 0]%nat sample_world 0%nat {["state" := VStr "closed"]}) as [Hkept _].
  - reflexivity.
  - exact Hkept.
Defined.

(** ** The fan-out of createMilestones *)

Section CreateMilestones.
Context (gh : github) (milestone : gmap string value).

Local Abbreviation create_handler repoSlug :=
  (fun reply : error + Milestone =>
     match reply with
     | inl err => Async.Done (inl (set_err_repo (repo_tag repoSlug) err))
     | inr result => Async.Done (inr result)
     end).

Local Abbreviation create_task :=
  (fun repoSlug : list string =>
     fresh <- alloc (repo_fields (repoSlug !! 0%nat) (repoSlug !! 1%nat)) ;;
     payload <- extend_at fresh milestone ;;
     reply <- request CreateMilestone (createMilestone gh) payload ;;
     ret (match reply with
          | inl err =>
              Async.Done
                (inl (set_err_repo (slug_of (repoSlug !! 0%nat) (repoSlug !! 1%nat)) err))
          | inr result => Async.Done (inr result)
          end)).

Local Abbreviation create_call base :=
  (fun (i : nat) (repoSlug : list string) =>
     {| call_op := CreateMilestone;
        call_payload := base + i;
        call_seen := create_payload milestone repoSlug |}).

Lemma alloc_then_extend (hp : list (gmap string value)) o :
  <[length hp := Underscore.extend (default ∅ ((hp ++ [o]) !! length hp)) milestone]>
    (hp ++ [o]) =
  hp ++ [Underscore.extend o milestone].
Proof.
  rewrite lookup_app_r, Nat.sub_diag by lia. simpl.
  rewrite insert_app_r_alt, Nat.sub_diag by lia. reflexivity.
Qed.

Lemma create_task_run r w :
  create_task r w =
    (create_handler r
       (createMilestone gh (length (calls w)) (create_payload milestone r)),
     {| heap := heap w ++ [create_payload milestone r];
        calls := calls w ++ [create_call (length (heap w)) 0%nat r] |}).
Proof.
  unfold bind, alloc, extend_at, request, ret. simpl.
  rewrite alloc_then_extend.
  rewrite lookup_app_r, Nat.sub_diag by lia. simpl.
  rewrite Nat.add_0_r. reflexivity.
Qed.

(** Starting the tasks: every task builds a payload object of its own. *)
Lemma dispatch_create_tasks rs : forall w,
  Async.dispatch (map create_task rs) w =
    (imap (fun i r =>
             create_handler r
               (createMilestone gh (length (calls w) + i) (create_payload milestone r)))
          rs,
     {| heap := heap w ++ map (create_payload milestone) rs;
        calls := calls w ++ imap (create_call (length (heap w))) rs |}).
Proof.
  induction rs as [|r rs IH]; intros w.
  - simpl. unfold ret. rewrite !app_nil_r. destruct w; reflexivity.
  - change (map create_task (r :: rs)) with (create_task r :: map create_task rs).
    rewrite Async_dispatch_cons, create_task_run, IH.
    cbn [heap calls]. rewrite !imap_cons, <- !app_assoc.
    f_equal; [f_equal|f_equal; f_equal; f_equal].
    + rewrite Nat.add_0_r. reflexivity.
    + apply imap_ext. intros i x _. simpl. rewrite length_app. simpl.
      replace (length (calls w) + 1 + i) with (length (calls w) + S i) by lia.
      reflexivity.
    + apply imap_ext. intros i x _. simpl. rewrite length_app. simpl.
      replace (length (heap w) + 1 + i) with (length (heap w) + S i) by lia.
      reflexivity.
Qed.

Lemma createMilestones_run me sched w :
  createMilestones me gh sched milestone w =
    (settled
       (imap (fun i r =>
                create_handler r
                  (createMilestone gh (length (calls w) + i)
                     (create_payload milestone r)))
             (repos me))
       sched,
     {| heap := heap w ++ map (create_payload milestone) (repos me);
        calls := calls w ++ imap (create_call (length (heap w))) (repos me) |}).
Proof.
  unfold createMilestones, _eachRepo.
  rewrite Async_parallel_settled.
  match goal with
  | |- context [Async.dispatch ?ts w] =>
      change (Async.dispatch ts w)
        with (Async.dispatch (map create_task (repos me)) w)
  end.
  rewrite dispatch_create_tasks. reflexivity.
Qed.

End CreateMilestones.

Lemma create_payload_template milestone repoSlug k v :
  milestone !! k = Some v -> create_payload milestone repoSlug !! k = Some v.
Proof.
  intros H. unfold create_payload, Underscore.extend.
  apply lookup_union_Some_l. exact H.
Qed.

Lemma create_payload_user milestone repoSlug :
  milestone !! "user" = None ->
  create_payload milestone repoSlug !! "user" = Some (Js.of_string (repoSlug !! 0%nat)).
Proof.
  intros H. unfold create_payload, Underscore.extend.
  rewrite lookup_union_r by exact H. reflexivity.
Qed.

Lemma create_payload_repo milestone repoSlug :
  milestone !! "repo" = None ->
  create_payload milestone repoSlug !! "repo" = Some (Js.of_string (repoSlug !! 1%nat)).
Proof.
  intros H. unfold create_payload, Underscore.extend.
  rewrite lookup_union_r by exact H. reflexivity.
Qed.

(** What the fan-out of [createMilestones] does for every template: it
    issues exactly one [createMilestone] request per configured repo, in repo
    order, each with a payload object of its own that holds every field of
    the template.  When the template has no [user] and no [repo] field, the
    payload for a repo [org/repo] is addressed to it.  When every request
    succeeds the callback receives the created milestones, one per repo, in
    the configured order. *)
Lemma createMilestones_fan_out me gh sched milestone w :
  sched ≡ₚ seq 0 (length (repos me)) ->
  let w' := snd (createMilestones me gh sched milestone w) in
  requests_since w w' =
    imap (fun i repoSlug =>
            {| call_op := CreateMilestone;
               call_payload := length (heap w) + i;
               call_seen := create_payload milestone repoSlug |})
         (repos me) /\
  (forall repoSlug k v,
     milestone !! k = Some v -> create_payload milestone repoSlug !! k = Some v) /\
  (forall org repo,
     milestone !! "user" = None ->
     milestone !! "repo" = None ->
     create_payload milestone [org; repo] !! "user" = Some (VStr org) /\
     create_payload milestone [org; repo] !! "repo" = Some (VStr repo)) /\
  (forall created : list Milestone,
     create_replies me gh milestone w = inr <$> created ->
     fst (createMilestones me gh sched milestone w) =
     Called None (Some (Some <$> created))).
Proof.
  intros Hperm w'. subst w'. rewrite createMilestones_run. cbn [fst snd].
  split; [unfold requests_since; simpl; apply drop_app_length|].
  split; [intros; apply create_payload_template; assumption|].
  split.
  { intros org repo Hu Hr. split.
    - apply (create_payload_user milestone [org; repo] Hu).
    - apply (create_payload_repo milestone [org; repo] Hr). }
  intros created Hreplies.
  assert (Hlen : length created = length (repos me)).
  { apply (f_equal length) in Hreplies. unfold create_replies in Hreplies.
    rewrite length_imap, length_fmap in Hreplies. lia. }
  match goal with
  | |- settled ?pending sched = _ =>
      replace pending with ((fun v : Milestone => Async.Done (inr v)) <$> created)
  end.
  - apply settled_all_done. rewrite Hlen. exact Hperm.
  - apply list_eq. intros i.
    assert (Hi := f_equal (fun l => l !! i) Hreplies). simpl in Hi.
    unfold create_replies in Hi.
    rewrite list_lookup_imap, list_lookup_fmap in Hi.
    rewrite list_lookup_imap, list_lookup_fmap.
    destruct (repos me !! i) as [r|], (created !! i) as [m|];
      simpl in *; try discriminate; [|reflexivity].
    injection Hi as ->. reflexivity.
Qed.

(** On the sample, with a template of [title] and [due_on]: the requests go
    to [a/x] and [b/y], and the created milestones come back in that order
    although the reply of [b/y] arrives first. *)
Lemma createMilestones_fan_out_on_sample :
  let template : gmap string value :=
    <["title" := VStr "Sprint 2"]> {["due_on" := VStr "2014-01-01"]} in
  let run := createMilestones sample_me (sample_gh false false false) [1; 0]%nat template
               sample_world in
  call_seen <$> calls (snd run) =
    [ <["user" := VStr "a"]> (<["repo" := VStr "x"]> template);
      <["user" := VStr "b"]> (<["repo" := VStr "y"]> template) ] /\
  fst run =
    Called None (Some [Some (sample_milestone 0 "Sprint 2"); Some (sample_milestone 1 "Sprint 2")]).
Proof. vm_compute. split; reflexivity. Qed.

(** C9, at the code: the payload is built as
    [_.extend({user: org, repo: repo}, milestone)], which copies the template
    over the repo's fields instead of the repo's fields over the template.  A
    template that has a [user] field therefore replaces the organization in
    every payload: all requests of the call carry the template's value under
    [user], and the request sent on behalf of a configured repo of another
    organization is not addressed to that repo. *)
Theorem createMilestones_template_replaces_org me gh sched milestone w v :
  milestone !! "user" = Some v ->
  let w' := snd (createMilestones me gh sched milestone w) in
  length (requests_since w w') = length (repos me) /\
  Forall (fun c => call_op c = CreateMilestone /\ call_seen c !! "user" = Some v)
    (requests_since w w') /\
  forall i org repo,
    repos me !! i = Some [org; repo] ->
    v <> VStr org ->
    exists c,
      requests_since w w' !! i = Some c /\
      call_seen c !! "user" <> Some (VStr org).
Proof.
  intros Huser w'. subst w'. rewrite createMilestones_run. cbn [snd].
  unfold requests_since. cbn [calls]. rewrite drop_app_length.
  split; [apply length_imap|]. split.
  - apply Forall_forall. intros c Hc.
    apply list_elem_of_lookup in Hc as [i Hc]. rewrite list_lookup_imap in Hc.
    destruct (repos me !! i) as [r|]; [|discriminate]. injection Hc as <-.
    split; [reflexivity|]. cbn [call_seen].
    apply create_payload_template. exact Huser.
  - intros i org repo Hrepo Hne. rewrite list_lookup_imap, Hrepo.
    eexists. split; [reflexivity|]. cbn [call_seen].
    rewrite (create_payload_template milestone [org; repo] "user" v Huser).
    congruence.
Qed.

Lemma createMilestones_template_replaces_org_witness :
  let template : gmap string value :=
    <["user" := VStr "evil"]> {["title" := VStr "Sprint 2"]} in
  let w' := snd (createMilestones sample_me (sample_gh false false false) [0; 1]%nat
                   template sample_world) in
  length (requests_since sample_world w') = 2%nat /\
  Forall (fun c => call_op c = CreateMilestone /\ call_seen c !! "user" = Some (VStr "evil"))
    (requests_since sample_world w').
Proof.
  intros template w'.
  destruct (createMilestones_template_replaces_org sample_me (sample_gh false false false)
              [0; 1]%nat template sample_world (VStr "evil")) as (Hlen & Hall & _).
  - reflexivity.
  - split; [exact Hlen|exact Hall].
Defined.

(** C9 on the sample: with the template [{user: "evil", title: "Sprint 2"}]
    the requests sent for [a/x] and [b/y] are addressed to [evil/x] and
    [evil/y]; no request reaches a configured repo. *)
Lemma createMilestones_template_wins :
  let template : gmap string value :=
    <["user" := VStr "evil"]> {["title" := VStr "Sprint 2"]} in
  let w' := snd (createMilestones sample_me (sample_gh false false false) [0; 1]%nat
                   template sample_world) in
  repos sample_me = [["a"; "x"]; ["b"; "y"]] /\
  call_seen <$> calls w' =
    [ <["user" := VStr "evil"]> (<["repo" := VStr "x"]> {["title" := VStr "Sprint 2"]});
      <["user" := VStr "evil"]> (<["repo" := VStr "y"]> {["title" := VStr "Sprint 2"]}) ].
Proof. vm_compute. split; reflexivity. Qed.

(** ** closeMilestones *)

Lemma getMilestones_failure_has_no_data me gh sched w err data :
  fst (getMilestones me gh sched w) = Called (Some err) data -> data = None.
Proof.
  unfold getMilestones, bind, ret.
  destruct (_eachRepoFlattened me _ sched w) as [[[e|] d| |] w']; simpl;
    intros H; inversion H; reflexivity.
Qed.

(** C6, at the code: when the milestone listing fails, [getMilestones] calls
    back with the error alone; the callback of [closeMilestones] then reads
    [milestones[title]] on [undefined] before it looks at [err], and throws.
    For no title is the error passed on to the caller. *)
Theorem closeMilestones_aggregation_failure me gh sched1 sched2 title w err data :
  fst (getMilestones me gh sched1 w) = Called (Some err) data ->
  fst (closeMilestones me gh sched1 sched2 title w) =
    Threw (TypeError "Cannot read property of undefined") /\
  forall reported, fst (closeMilestones me gh sched1 sched2 title w) <> Called (Some err) reported.
Proof.
  intros Hfail.
  pose proof (getMilestones_failure_has_no_data _ _ _ _ _ _ Hfail) as ->.
  unfold closeMilestones, bind.
  destruct (getMilestones me gh sched1 w) as [r w1]. simpl in Hfail. subst r.
  simpl. split; [reflexivity|]. intros reported H. discriminate H.
Qed.

Lemma closeMilestones_aggregation_failure_witness :
  fst (getMilestones sample_me (sample_gh false true false) [0; 1]%nat sample_world) =
    Called (Some {| message := "boom"; err_repo := Some "b/y" |}) None /\
  fst (closeMilestones sample_me (sample_gh false true false) [0; 1]%nat [0; 1]%nat
         "Sprint 1" sample_world) =
    Threw (TypeError "Cannot read property of undefined").
Proof.
  split; [reflexivity|].
  apply (closeMilestones_aggregation_failure sample_me (sample_gh false true false)
           [0; 1]%nat [0; 1]%nat "Sprint 1" sample_world
           {| message := "boom"; err_repo := Some "b/y" |} None).
  reflexivity.
Defined.

(** The reply handler of an update task throws on an error reply. *)
Lemma updater_error_reply_raises gh m task w err :
  updater gh (Some m) = inr task ->
  (forall seen, updateMilestone gh (length (calls w)) seen = inl err) ->
  fst (task w) = Async.Raise (ReferenceError "org").
Proof.
  unfold updater. destruct (ms_repo m) as [r|]; [|discriminate].
  intros [= <-] Hfail.
  unfold bind, alloc, request, ret. simpl. rewrite Hfail. reflexivity.
Qed.

(** No update task ever reports an error to its task callback. *)
Lemma updater_never_reports gh match_ task w err :
  updater gh match_ = inr task -> fst (task w) <> Async.Done (inl err).
Proof.
  unfold updater. destruct match_ as [m|]; [|discriminate].
  destruct (ms_repo m) as [r|]; [|discriminate].
  intros [= <-]. unfold bind, alloc, request, ret. simpl.
  destruct (updateMilestone gh _ _); discriminate.
Qed.

Lemma map_items_inr {A B} (f : option A -> exn + B) l ys :
  Underscore.map_items f l = inr ys ->
  Forall (fun y => exists x, f x = inr y) ys.
Proof.
  revert ys. induction l as [|x l IH]; intros ys; simpl.
  - intros [= <-]. constructor.
  - destruct (f x) as [e|y] eqn:Hy; [discriminate|].
    destruct (Underscore.map_items f l) as [e|ys']; [discriminate|].
    intros [= <-]. constructor; [eauto|]. apply IH. reflexivity.
Qed.

Lemma map_property_inr {A B} (f : option A -> exn + B) p ys :
  Underscore.map_property f p = inr ys ->
  Forall (fun y => exists x, f x = inr y) ys.
Proof.
  destruct p as [l|[arity|]|]; simpl.
  - apply map_items_inr.
  - apply map_items_inr.
  - intros [= <-]. constructor.
  - intros [= <-]. constructor.
Qed.

Lemma dispatch_Forall {T} (P : Async.handled T -> Prop)
    (tasks : list (M (Async.handled T))) :
  Forall (fun t => forall w, P (fst (t w))) tasks ->
  forall w, Forall P (fst (Async.dispatch tasks w)).
Proof.
  induction 1 as [|t ts Ht _ IH]; intros w; [constructor|].
  change (Async.dispatch (t :: ts) w)
    with (let (h, w1) := t w in
          let (hs, w2) := Async.dispatch ts w1 in (h :: hs, w2)).
  specialize (Ht w). destruct (t w) as [h w1].
  specialize (IH w1). destruct (Async.dispatch ts w1) as [hs w2].
  constructor; assumption.
Qed.

Lemma deliver_never_reports {T} n (pending : list (Async.handled T)) sched :
  Forall (fun h => forall err, h <> Async.Done (inl err)) pending ->
  forall results completed err data,
    Async.deliver n pending sched results completed <> Called (Some err) data.
Proof.
  intros Hnone. induction sched as [|i sched IH]; intros results completed err data;
    simpl; [discriminate|].
  destruct (pending !! i) as [[[e|v]|x]|] eqn:Hi.
  - rewrite Forall_forall in Hnone.
    exfalso. apply (Hnone (Async.Done (inl e))) with (err := e); [|reflexivity].
    apply list_elem_of_lookup. eauto.
  - destruct (decide (n <= S completed)); [discriminate|]. apply IH.
  - discriminate.
  - apply IH.
Qed.

(** C7, at the code: once the milestones are listed, [closeMilestones]
    never calls back with an error, whatever the update replies are.  The
    error branch of the update handler throws before it reaches
    [localCallback(err)], so a failed update surfaces as an uncaught
    [ReferenceError], not as an error object with the repo's slug. *)
Theorem closeMilestones_never_reports_update_error
    me gh sched1 sched2 title w groups err data :
  fst (getMilestones me gh sched1 w) = Called None (Some groups) ->
  fst (closeMilestones me gh sched1 sched2 title w) <> Called (Some err) data.
Proof.
  intros Hok. unfold closeMilestones, bind.
  destruct (getMilestones me gh sched1 w) as [r w1]. simpl in Hok. subst r.
  cbn iota beta.
  destruct (negb (Js.truthy (Js.get groups title))); [discriminate|].
  destruct (Underscore.map_property (updater gh) (Js.get groups title))
    as [x|updaters] eqn:Hmap; [discriminate|].
  rewrite Async_parallel_settled. cbn [fst].
  apply map_property_inr in Hmap.
  assert (Hpending :
            Forall (fun h => forall e, h <> Async.Done (inl e))
              (fst (Async.dispatch updaters w1))).
  { apply dispatch_Forall. eapply Forall_impl; [exact Hmap|].
    intros t [m Hm] w0 e. apply (updater_never_reports gh m t w0 e Hm). }
  unfold settled.
  destruct (fst (Async.dispatch updaters w1)) as [|h hs] eqn:E; [discriminate|].
  apply deliver_never_reports. exact Hpending.
Qed.

Lemma closeMilestones_never_reports_update_error_witness :
  fst (closeMilestones sample_me (sample_gh false false true) [0; 1]%nat [0; 1]%nat
         "Sprint 1" sample_world) <>
  Called (Some {| message := "boom"; err_repo := Some "b/y" |}) None.
Proof.
  apply (closeMilestones_never_reports_update_error sample_me (sample_gh false false true)
           [0; 1]%nat [0; 1]%nat "Sprint 1" sample_world
           {["Sprint 1" := [set_milestone_repo "a/x" (sample_milestone 7 "Sprint 1");
                            set_milestone_repo "b/y" (sample_milestone 3 "Sprint 1")]]}).
  vm_compute. reflexivity.
Defined.

(** C7 on the sample: the update for [b/y] fails; whichever reply comes
    first, the run ends in a [ReferenceError] for [org]. *)
Lemma closeMilestones_update_failure_on_sample :
  fst (closeMilestones sample_me (sample_gh false false true) [0; 1]%nat [0; 1]%nat
         "Sprint 1" sample_world) = Threw (ReferenceError "org") /\
  fst (closeMilestones sample_me (sample_gh false false true) [0; 1]%nat [1; 0]%nat
         "Sprint 1" sample_world) = Threw (ReferenceError "org").
Proof. vm_compute. split; reflexivity. Qed.

(** A title that no read of the groups object finds: nothing is updated and
    the callback receives the empty list. *)
Lemma closeMilestones_miss me gh sched1 sched2 title w groups :
  fst (getMilestones me gh sched1 w) = Called None (Some groups) ->
  Js.get groups title = Js.Absent ->
  closeMilestones me gh sched1 sched2 title w =
  (Called None (Some []), snd (getMilestones me gh sched1 w)).
Proof.
  intros Hok Habsent. unfold closeMilestones, bind.
  destruct (getMilestones me gh sched1 w) as [r w1]. simpl in Hok. subst r.
  simpl. rewrite Habsent. reflexivity.
Qed.

(** A title that is not among the groups: no [updateMilestone] request is
    issued, whatever the read of [milestones[title]] finds. *)
Lemma closeMilestones_miss_no_request me gh sched1 sched2 title w groups :
  fst (getMilestones me gh sched1 w) = Called None (Some groups) ->
  groups !! title = None ->
  snd (closeMilestones me gh sched1 sched2 title w) = snd (getMilestones me gh sched1 w).
Proof.
  intros Hok Hnone. unfold closeMilestones, bind.
  destruct (getMilestones me gh sched1 w) as [r w1]. simpl in Hok. subst r.
  simpl. unfold Js.get. rewrite Hnone.
  destruct (Js.assoc title Js.object_prototype) as [[[|arity]|]|]; reflexivity.
Qed.

(** C8, at the code: [constructor] names a member every object inherits.
    Whenever it is the title of no milestone, [milestones["constructor"]]
    still finds the inherited function, the empty-list branch is skipped,
    and mapping over the function throws: the callback does not receive the
    empty list.  No request is issued after the listing. *)
Theorem closeMilestones_inherited_title me gh sched1 sched2 w groups :
  fst (getMilestones me gh sched1 w) = Called None (Some groups) ->
  groups !! "constructor" = None ->
  closeMilestones me gh sched1 sched2 "constructor" w =
  (Threw (TypeError "Cannot read property 'repo' of undefined"),
   snd (getMilestones me gh sched1 w)).
Proof.
  intros Hok Hnone. unfold closeMilestones, bind.
  destruct (getMilestones me gh sched1 w) as [r w1]. simpl in Hok. subst r.
  simpl. unfold Js.get. rewrite Hnone. reflexivity.
Qed.

Lemma closeMilestones_inherited_title_witness :
  let run := closeMilestones sample_me (sample_gh false false false) [0; 1]%nat [0; 1]%nat
               "constructor" sample_world in
  fst run = Threw (TypeError "Cannot read property 'repo' of undefined") /\
  filter (fun c => call_op c = UpdateMilestone) (calls (snd run)) = [].
Proof.
  intros run. subst run.
  rewrite (closeMilestones_inherited_title sample_me (sample_gh false false false)
             [0; 1]%nat [0; 1]%nat sample_world
             {["Sprint 1" := [set_milestone_repo "a/x" (sample_milestone 7 "Sprint 1");
                              set_milestone_repo "b/y" (sample_milestone 3 "Sprint 1")]]}).
  - split; [reflexivity|]. vm_compute. reflexivity.
  - vm_compute. reflexivity.
  - reflexivity.
Defined.

(** * Further properties *)

(** ** Slugs and tags *)

Lemma split_nonempty sep s : Js.split sep s <> [].
Proof.
  destruct s as [|c s]; simpl; [discriminate|].
  destruct (Ascii.eqb c sep); [discriminate|].
  destruct (Js.split sep s); discriminate.
Qed.

Lemma split_parts_without_separator sep s :
  Forall (fun part => Js.includes sep part = false) (Js.split sep s).
Proof.
  induction s as [|c s IH]; simpl; [repeat constructor|].
  destruct (Ascii.eqb c sep) eqn:Hc; [constructor; [reflexivity|exact IH]|].
  destruct (Js.split sep s) as [|w ws]; [repeat constructor; simpl; rewrite Hc; reflexivity|].
  apply Forall_cons in IH as [Hw Hws].
  constructor; [simpl; rewrite Hc; exact Hw|exact Hws].
Qed.

(** X1: in an instance the constructor built, every entry of [repos] has a
    first part, so [org] is never [undefined], and no part holds a slash. *)
Theorem Sprinter_parts username password repoSlugs me :
  Sprinter username password repoSlugs = inr me ->
  Forall (fun repoSlug =>
            (exists org, repoSlug !! 0%nat = Some org) /\
            Forall (fun part => Js.includes "/" part = false) repoSlug)
    (repos me).
Proof.
  intros [= <-]. simpl. unfold convertSlugsToObjects.
  apply Forall_forall. intros repoSlug Hin.
  apply list_elem_of_In, in_map_iff in Hin as (slug & <- & _). split.
  - pose proof (split_nonempty "/" slug) as Hne.
    destruct (Js.split "/" slug) as [|org rest]; [congruence|]. exists org. reflexivity.
  - apply split_parts_without_separator.
Qed.

Lemma Sprinter_parts_witness :
  Forall (fun repoSlug =>
            (exists org, repoSlug !! 0%nat = Some org) /\
            Forall (fun part => Js.includes "/" part = false) repoSlug)
    [["abc"]; ["a"; "b"; "c"]].
Proof.
  apply (Sprinter_parts "user" "secret" ["abc"; "a/b/c"]
           {| username := "user"; password := "secret";
              repos := [["abc"]; ["a"; "b"; "c"]] |}).
  reflexivity.
Defined.

Lemma split_decompose sep s :
  Js.includes sep s = false \/
  exists a b, s = a +:+ String sep b /\ Js.includes sep a = false.
Proof.
  induction s as [|c s IH]; [left; reflexivity|].
  destruct (Ascii.eqb c sep) eqn:Hc.
  - right. exists "", s. apply Ascii.eqb_eq in Hc as ->. split; reflexivity.
  - destruct IH as [Hs|(a & b & -> & Ha)].
    + left. simpl. rewrite Hc. exact Hs.
    + right. exists (String c a), b. split; [reflexivity|].
      simpl. rewrite Hc. exact Ha.
Qed.

Lemma append_not_self (s z : string) : s +:+ z = s -> z = "".
Proof.
  induction s as [|c s IH]; simpl; [auto|].
  intros [= H]. auto.
Qed.

(** X2: the tag [org + '/' + repo] built from a parsed slug is the slug
    again exactly when the slug has two parts, that is one slash. *)
Theorem repo_tag_is_slug_iff slug :
  repo_tag (Js.split "/" slug) = slug <-> length (Js.split "/" slug) = 2%nat.
Proof.
  destruct (split_decompose "/" slug) as [Hs|(a & b & -> & Ha)].
  - rewrite (split_without_separator _ _ Hs). unfold repo_tag, slug_of. simpl.
    split; [|discriminate].
    intros H. apply append_not_self in H. discriminate H.
  - rewrite (split_at_first_separator _ _ _ Ha).
    destruct (split_decompose "/" b) as [Hb|(c & d & -> & Hc)].
    + rewrite (split_without_separator _ _ Hb). split; reflexivity.
    + rewrite (split_at_first_separator _ _ _ Hc).
      pose proof (split_nonempty "/" d) as Hd.
      destruct (Js.split "/" d) as [|e rest]; [congruence|].
      unfold repo_tag, slug_of. simpl. split; [|discriminate].
      intros H. apply (inj (String.app a)) in H. injection H as H.
      symmetry in H. apply append_not_self in H. discriminate H.
Qed.

(** ** getIssues: messages and reply orders *)

(** X3: the message of the request for a repo holds the caller's filters,
    [state: 'open'] when the caller gives no [state], and the repo's own
    [user] and [repo], which replace any the caller passed. *)
Theorem getIssues_messages me gh sched userFilters w :
  Forall2
    (fun repoSlug c =>
       call_seen c !! "user" = Some (Js.of_string (repoSlug !! 0%nat)) /\
       call_seen c !! "repo" = Some (Js.of_string (repoSlug !! 1%nat)) /\
       forall k, k <> "user" -> k <> "repo" ->
         call_seen c !! k =
         match caller_filters userFilters w !! k with
         | Some v => Some v
         | None => if decide (k = "state") then Some (VStr "open") else None
         end)
    (repos me)
    (requests_since w (snd (getIssues me gh sched userFilters w))).
Proof.
  rewrite getIssues_requests.
  change (map ?f ?l) with (f <$> l).
  apply Forall2_fmap_r, Forall_Forall2_diag, Forall_forall.
  intros repoSlug _. unfold compose. cbv beta. cbn [call_seen].
  fold (issue_filters (caller_filters userFilters w) repoSlug).
  split; [apply issue_filters_lookup_user|].
  split; [apply issue_filters_lookup_repo|].
  intros k Hu Hr. apply issue_filters_lookup; assumption.
Qed.

(** A list of distinct branch indices that is as long as there are branches
    holds every branch. *)
Lemma distinct_branches_complete n (s1 s2 : list nat) :
  NoDup (s1 ++ s2) ->
  (forall i, i ∈ s1 ++ s2 -> i < n) ->
  n <= length s1 ->
  s1 ≡ₚ seq 0 n /\ s2 = [].
Proof.
  intros Hnd Hlt Hlen.
  apply NoDup_app in Hnd as (Hnd1 & Hdisj & _).
  assert (Hperm : s1 ≡ₚ seq 0 n).
  { apply submseteq_length_Permutation; [|rewrite length_seq; exact Hlen].
    apply NoDup_submseteq; [exact Hnd1|].
    intros i Hi. apply elem_of_seq. split; [lia|].
    simpl. apply Hlt, elem_of_app. left. exact Hi. }
  split; [exact Hperm|].
  destruct s2 as [|j s2]; [reflexivity|]. exfalso.
  apply (Hdisj j); [|left].
  rewrite Hperm. apply elem_of_seq. split; [lia|].
  simpl. apply Hlt, elem_of_app. right. left.
Qed.

Section DeliverOrders.
Context {T : Type}.
Implicit Types (pending : list (Async.handled T)) (sched : list nat).

(** While replies are successes and fewer than all have arrived, the final
    callback is not called. *)
Lemma deliver_pending n pending sched :
  (forall i, i ∈ sched -> exists v, pending !! i = Some (Async.Done (inr v))) ->
  forall results completed,
    completed + length sched < n ->
    Async.deliver n pending sched results completed = Pending.
Proof.
  induction sched as [|i sched IH]; intros Hok results completed Hlt; [reflexivity|].
  simpl. destruct (Hok i) as [v ->]; [left|].
  simpl in Hlt. rewrite decide_False by lia.
  apply IH; [|lia]. intros j Hj. apply Hok. right. exact Hj.
Qed.

(** A success report has consumed a prefix of the schedule made of
    successes only, as many as there are tasks still to report. *)
Lemma deliver_success_prefix n pending sched :
  (forall i, i ∈ sched -> is_Some (pending !! i)) ->
  forall results completed data,
    Async.deliver n pending sched results completed = Called None data ->
    exists s1 s2,
      sched = s1 ++ s2 /\
      n <= completed + length s1 /\
      forall i, i ∈ s1 -> exists v, pending !! i = Some (Async.Done (inr v)).
Proof.
  induction sched as [|i sched IH]; intros Hin results completed data; simpl;
    [discriminate|].
  destruct (Hin i) as [h Hh]; [left|]. rewrite Hh.
  destruct h as [[err|v]|x]; try discriminate.
  destruct (decide (n <= S completed)) as [Hle|Hgt].
  - intros _. exists [i], sched. split; [reflexivity|]. split; [simpl; lia|].
    intros j Hj. apply list_elem_of_singleton in Hj as ->. eauto.
  - intros Hrun. apply IH in Hrun as (s1 & s2 & -> & Hlen & Hok).
    + exists (i :: s1), s2. split; [reflexivity|]. split; [simpl; lia|].
      intros j Hj. apply elem_of_cons in Hj as [->|Hj]; eauto.
    + intros j Hj. apply Hin. right. exact Hj.
Qed.

Lemma settled_first_error pending s1 s2 k err :
  pending !! k = Some (Async.Done (inl err)) ->
  (forall i, i ∈ s1 -> exists v, pending !! i = Some (Async.Done (inr v))) ->
  length s1 < length pending ->
  exists partial, settled pending (s1 ++ k :: s2) = Called (Some err) (Some partial).
Proof.
  intros Hk Hok Hlt. destruct pending as [|h hs]; [discriminate|].
  unfold settled. apply deliver_first_error; [exact Hk|exact Hok|lia].
Qed.

Lemma settled_pending pending sched :
  (forall i, i ∈ sched -> exists v, pending !! i = Some (Async.Done (inr v))) ->
  length sched < length pending ->
  settled pending sched = Pending.
Proof.
  intros Hok Hlt. destruct pending as [|h hs]; [simpl in Hlt; lia|].
  unfold settled. apply deliver_pending; [exact Hok|lia].
Qed.

(** A success report means every task has reported a success, and the
    schedule is exactly one reply per task. *)
Lemma settled_success_complete pending sched data :
  NoDup sched ->
  (forall i, i ∈ sched -> i < length pending) ->
  settled pending sched = Called None data ->
  sched ≡ₚ seq 0 (length pending) /\
  forall i h, pending !! i = Some h -> exists v, h = Async.Done (inr v).
Proof.
  intros Hnd Hlt Hrun. destruct pending as [|h0 hs].
  - destruct sched as [|i sched]; [split; [reflexivity|intros i h; discriminate]|].
    exfalso. specialize (Hlt i). simpl in Hlt.
    assert (i < 0) by (apply Hlt; left). lia.
  - unfold settled in Hrun.
    apply deliver_success_prefix in Hrun as (s1 & s2 & -> & Hlen & Hok).
    2:{ intros i Hi. apply lookup_lt_is_Some_2, Hlt, Hi. }
    destruct (distinct_branches_complete (length (h0 :: hs)) s1 s2 Hnd Hlt)
      as [Hperm ->]; [lia|].
    rewrite app_nil_r. split; [exact Hperm|].
    intros i h Hh.
    assert (Hi : i ∈ s1).
    { rewrite Hperm. apply elem_of_seq. apply lookup_lt_Some in Hh. lia. }
    destruct (Hok i Hi) as [v Hv]. rewrite Hh in Hv. injection Hv as ->. eauto.
Qed.

End DeliverOrders.

Lemma all_successes {E V} (replies : list (E + V)) :
  (forall i reply, replies !! i = Some reply -> exists v, reply = inr v) ->
  exists results : list V, replies = inr <$> results.
Proof.
  induction replies as [|reply replies IH]; intros Hok; [exists []; reflexivity|].
  destruct (Hok 0%nat reply eq_refl) as [v ->].
  destruct IH as [results ->].
  { intros i x Hx. apply (Hok (S i) x Hx). }
  exists (v :: results). reflexivity.
Qed.

Local Abbreviation issue_handler_of repoSlug :=
  (fun reply : error + list Issue =>
     match reply with
     | inl err => Async.Done (inl (set_err_repo (repo_tag repoSlug) err))
     | inr issues => Async.Done (inr (set_issue_repo (repo_tag repoSlug) <$> issues))
     end).

Local Abbreviation issue_pending_of gh me userFilters w :=
  (imap (fun i r =>
           issue_handler_of r
             (repoIssues gh (length (calls w) + i)
                (issue_filters (caller_filters userFilters w) r)))
        (repos me)).

Lemma issue_pending_of_reply gh me userFilters w i reply :
  issue_replies me gh userFilters w !! i = Some reply ->
  exists r,
    repos me !! i = Some r /\
    issue_pending_of gh me userFilters w !! i = Some (issue_handler_of r reply).
Proof.
  rewrite issue_replies_lookup, list_lookup_imap.
  destruct (repos me !! i) as [r|]; [|discriminate].
  simpl. intros [= <-]. exists r. split; reflexivity.
Qed.

Lemma issue_reply_of_pending gh me userFilters w i h :
  issue_pending_of gh me userFilters w !! i = Some h ->
  exists r reply,
    issue_replies me gh userFilters w !! i = Some reply /\
    h = issue_handler_of r reply.
Proof.
  rewrite issue_replies_lookup, list_lookup_imap.
  destruct (repos me !! i) as [r|]; [|discriminate].
  simpl. intros [= <-]. eauto.
Qed.

(** X4: among several failing requests, the error the callback receives is
    that of the failing reply that arrives first, with its own repo's slug
    and no data. *)
Theorem getIssues_first_error_wins me gh s1 s2 k userFilters w repoSlug err :
  NoDup (s1 ++ [k]) ->
  repos me !! k = Some repoSlug ->
  issue_replies me gh userFilters w !! k = Some (inl err) ->
  (forall i, i ∈ s1 ->
     exists issues, issue_replies me gh userFilters w !! i = Some (inr issues)) ->
  fst (getIssues me gh (s1 ++ k :: s2) userFilters w) =
  Called (Some {| message := message err; err_repo := Some (repo_tag repoSlug) |}) None.
Proof.
  intros Hnd Hrepo Hk Hok.
  rewrite getIssues_outcome.
  set (pending := issue_pending_of gh me userFilters w).
  assert (Hlen : length pending = length (repos me)) by apply length_imap.
  assert (Hpk : pending !! k =
                Some (Async.Done (inl (set_err_repo (repo_tag repoSlug) err)))).
  { destruct (issue_pending_of_reply gh me userFilters w k _ Hk) as (r & Hr & Hp).
    rewrite Hrepo in Hr. injection Hr as <-. exact Hp. }
  assert (Hps : forall i, i ∈ s1 -> exists v, pending !! i = Some (Async.Done (inr v))).
  { intros i Hi. destruct (Hok i Hi) as [issues Hissues].
    destruct (issue_pending_of_reply gh me userFilters w i _ Hissues) as (r & _ & Hp).
    eauto. }
  assert (Hshort : length s1 < length pending).
  { assert (Hsub : s1 ++ [k] ⊆+ seq 0 (length pending)).
    { apply NoDup_submseteq; [exact Hnd|]. intros i Hi.
      apply elem_of_seq. split; [lia|]. simpl.
      apply elem_of_app in Hi as [Hi|Hi].
      - destruct (Hps i Hi) as [v Hv]. eapply lookup_lt_Some. exact Hv.
      - apply list_elem_of_singleton in Hi as ->. eapply lookup_lt_Some. exact Hpk. }
    apply submseteq_length in Hsub.
    rewrite length_app, length_seq in Hsub. simpl in Hsub. lia. }
  destruct (settled_first_error pending s1 s2 k _ Hpk Hps Hshort) as [partial Hs].
  subst pending. rewrite Hs. reflexivity.
Qed.

Lemma getIssues_first_error_wins_witness :
  fst (getIssues sample_me (sample_gh true false false) ([0] ++ 1 :: [])%nat None
         sample_world) =
  Called (Some {| message := "boom"; err_repo := Some "b/y" |}) None.
Proof.
  apply (getIssues_first_error_wins sample_me (sample_gh true false false)
           [0]%nat [] 1%nat None sample_world ["b"; "y"] boom).
  - change (NoDup [0; 1]%nat). apply NoDup_cons. split; [|apply NoDup_singleton].
    apply not_elem_of_cons. split; [discriminate|apply not_elem_of_nil].
  - reflexivity.
  - reflexivity.
  - intros i Hi. apply list_elem_of_singleton in Hi as ->. eexists. reflexivity.
Defined.

(** X5: a success report is never partial.  When each branch replies at most
    once and the callback receives issues, every request has succeeded, and
    the issues are those of all the repos. *)
Theorem getIssues_success_is_complete me gh sched userFilters w items :
  NoDup sched ->
  (forall i, i ∈ sched -> i < length (repos me)) ->
  fst (getIssues me gh sched userFilters w) = Called None (Some items) ->
  sched ≡ₚ seq 0 (length (repos me)) /\
  exists results : list (list Issue),
    issue_replies me gh userFilters w = inr <$> results /\
    items = sortIssues (tagged_issues me results).
Proof.
  intros Hnd Hlt Hrun.
  pose proof Hrun as Hout. rewrite getIssues_outcome in Hout.
  set (pending := issue_pending_of gh me userFilters w).
  change (issues_outcome (settled pending sched) = Called None (Some items)) in Hout.
  assert (Hlen : length pending = length (repos me)) by apply length_imap.
  destruct (settled pending sched) as [[err|] data| |] eqn:Hs; try discriminate.
  rewrite <- Hlen in Hlt.
  destruct (settled_success_complete pending sched data Hnd Hlt Hs) as [Hperm Hall].
  rewrite Hlen in Hperm. split; [exact Hperm|].
  destruct (all_successes (issue_replies me gh userFilters w)) as [results Hresults].
  { intros i reply Hreply.
    destruct (issue_pending_of_reply gh me userFilters w i reply Hreply) as (r & _ & Hp).
    destruct (Hall i _ Hp) as [v Hv].
    destruct reply as [err|issues]; [discriminate|]. eauto. }
  exists results. split; [exact Hresults|].
  rewrite (getIssues_success gh me sched userFilters w results Hperm Hresults) in Hrun.
  congruence.
Qed.

Lemma getIssues_success_is_complete_witness :
  exists results : list (list Issue),
    issue_replies sample_me (sample_gh false false false) (Some 0%nat) sample_world =
      inr <$> results.
Proof.
  destruct (getIssues_success_is_complete sample_me (sample_gh false false false)
              [1; 0]%nat (Some 0%nat) sample_world
              [set_issue_repo "b/y" (sample_issue 3 9); set_issue_repo "a/x" (sample_issue 2 5);
               set_issue_repo "a/x" (sample_issue 1 5); set_issue_repo "b/y" (sample_issue 4 1)])
    as (_ & results & Hresults & _).
  - apply NoDup_cons. split; [|apply NoDup_singleton].
    apply not_elem_of_cons. split; [discriminate|apply not_elem_of_nil].
  - intros i Hi. apply elem_of_cons in Hi as [->|Hi]; [simpl; lia|].
    apply list_elem_of_singleton in Hi as ->. simpl. lia.
  - vm_compute. reflexivity.
  - exists results. exact Hresults.
Defined.

(** X6: while fewer replies have arrived than there are repos, and all of
    them are successes, the callback has not been called. *)
Theorem getIssues_waits_for_all me gh sched userFilters w :
  (forall i, i ∈ sched ->
     exists issues, issue_replies me gh userFilters w !! i = Some (inr issues)) ->
  length sched < length (repos me) ->
  fst (getIssues me gh sched userFilters w) = Pending.
Proof.
  intros Hok Hlt. rewrite getIssues_outcome.
  rewrite settled_pending; [reflexivity| |rewrite length_imap; exact Hlt].
  intros i Hi. destruct (Hok i Hi) as [issues Hissues].
  destruct (issue_pending_of_reply gh me userFilters w i _ Hissues) as (r & _ & Hp).
  eauto.
Qed.

Lemma getIssues_waits_for_all_witness :
  fst (getIssues sample_me (sample_gh true false false) [0]%nat None sample_world) = Pending.
Proof.
  apply (getIssues_waits_for_all sample_me (sample_gh true false false) [0]%nat None
           sample_world).
  - intros i Hi. apply list_elem_of_singleton in Hi as ->. eexists. reflexivity.
  - simpl. lia.
Defined.

(** ** getMilestones *)

Section GetMilestones.
Context (gh : github).

Local Abbreviation list_handler repoSlug :=
  (fun reply : error + list Milestone =>
     match reply with
     | inl err => Async.Done (inl (set_err_repo (repo_tag repoSlug) err))
     | inr milestones =>
         Async.Done (inr (set_milestone_repo (repo_tag repoSlug) <$> milestones))
     end).

Local Abbreviation list_task :=
  (fun repoSlug : list string =>
     payload <- alloc (repo_fields (repoSlug !! 0%nat) (repoSlug !! 1%nat)) ;;
     reply <- request GetAllMilestones (getAllMilestones gh) payload ;;
     ret (match reply with
          | inl err =>
              Async.Done
                (inl (set_err_repo (slug_of (repoSlug !! 0%nat) (repoSlug !! 1%nat)) err))
          | inr milestones =>
              Async.Done
                (inr (map (set_milestone_repo
                             (slug_of (repoSlug !! 0%nat) (repoSlug !! 1%nat)))
                        milestones))
          end)).

Local Abbreviation list_call base :=
  (fun (i : nat) (repoSlug : list string) =>
     {| call_op := GetAllMilestones;
        call_payload := base + i;
        call_seen := repo_fields (repoSlug !! 0%nat) (repoSlug !! 1%nat) |}).

Local Abbreviation list_pending me w :=
  (imap (fun i r =>
           list_handler r
             (getAllMilestones gh (length (calls w) + i)
                (repo_fields (r !! 0%nat) (r !! 1%nat))))
        (repos me)).

Lemma list_task_run r w :
  list_task r w =
    (list_handler r
       (getAllMilestones gh (length (calls w)) (repo_fields (r !! 0%nat) (r !! 1%nat))),
     {| heap := heap w ++ [repo_fields (r !! 0%nat) (r !! 1%nat)];
        calls := calls w ++ [list_call (length (heap w)) 0%nat r] |}).
Proof.
  unfold bind, alloc, request, ret. cbn [heap calls fst snd].
  rewrite lookup_app_r, Nat.sub_diag by lia. cbn [lookup list_lookup default from_option].
  rewrite Nat.add_0_r. reflexivity.
Qed.

Lemma dispatch_list_tasks rs : forall w,
  Async.dispatch (map list_task rs) w =
    (imap (fun i r =>
             list_handler r
               (getAllMilestones gh (length (calls w) + i)
                  (repo_fields (r !! 0%nat) (r !! 1%nat))))
          rs,
     {| heap := heap w ++ map (fun r => repo_fields (r !! 0%nat) (r !! 1%nat)) rs;
        calls := calls w ++ imap (list_call (length (heap w))) rs |}).
Proof.
  induction rs as [|r rs IH]; intros w.
  - simpl. unfold ret. rewrite !app_nil_r. destruct w; reflexivity.
  - change (map list_task (r :: rs)) with (list_task r :: map list_task rs).
    rewrite Async_dispatch_cons, list_task_run, IH.
    cbn [heap calls map]. rewrite !imap_cons, <- !app_assoc.
    f_equal; [f_equal|f_equal; f_equal; f_equal].
    + rewrite Nat.add_0_r. reflexivity.
    + apply imap_ext. intros i x _. simpl. rewrite length_app. simpl.
      replace (length (calls w) + 1 + i) with (length (calls w) + S i) by lia.
      reflexivity.
    + apply imap_ext. intros i x _. simpl. rewrite length_app. simpl.
      replace (length (heap w) + 1 + i) with (length (heap w) + S i) by lia.
      reflexivity.
Qed.

Lemma getMilestones_run me sched w :
  getMilestones me gh sched w =
    (milestones_outcome (settled (list_pending me w) sched),
     {| heap := heap w ++ map (fun r => repo_fields (r !! 0%nat) (r !! 1%nat)) (repos me);
        calls := calls w ++ imap (list_call (length (heap w))) (repos me) |}).
Proof.
  unfold getMilestones, _eachRepoFlattened, _eachRepo.
  unfold bind at 1. unfold bind at 1. rewrite Async_parallel_settled.
  match goal with
  | |- context [Async.dispatch ?ts w] =>
      change (Async.dispatch ts w) with (Async.dispatch (map list_task (repos me)) w)
  end.
  rewrite dispatch_list_tasks. cbn [fst snd]. unfold ret, milestones_outcome.
  match goal with
  | |- context [settled ?P sched] => destruct (settled P sched) as [[err|] data| |]
  end; reflexivity.
Qed.

End GetMilestones.

Lemma groupBy_fold_lookup {A} (key : A -> string) (l : list A) k :
  forall acc : gmap string (list A),
    fold_left (fun result v => <[key v := default [] (result !! key v) ++ [v]]> result) l acc
      !! k =
    if decide (acc !! k = None /\ filter (fun v => key v = k) l = [])
    then None
    else Some (default [] (acc !! k) ++ filter (fun v => key v = k) l).
Proof.
  induction l as [|x l IH]; intros acc.
  - cbn [fold_left]. rewrite (filter_nil (fun v => key v = k)), app_nil_r.
    destruct (acc !! k) as [group|] eqn:E.
    + rewrite decide_False by (intros [? _]; discriminate). reflexivity.
    + rewrite decide_True by (split; reflexivity). reflexivity.
  - cbn [fold_left]. rewrite IH, (filter_cons (fun v => key v = k)).
    destruct (decide (key x = k)) as [<-|Hne].
    + rewrite lookup_insert_eq.
      rewrite decide_False by (intros [? _]; discriminate).
      rewrite decide_False by (intros [_ ?]; discriminate).
      cbn [from_option id]. rewrite <- app_assoc. reflexivity.
    + rewrite lookup_insert_ne by exact Hne. reflexivity.
Qed.

Lemma groupBy_lookup {A} (key : A -> string) (l : list A) k :
  Underscore.groupBy key l !! k =
  if decide (filter (fun v => key v = k) l = [])
  then None
  else Some (filter (fun v => key v = k) l).
Proof.
  unfold Underscore.groupBy. rewrite groupBy_fold_lookup, lookup_empty.
  destruct (decide (filter (fun v => key v = k) l = [])) as [Hnil|Hne].
  - rewrite decide_True by (split; [reflexivity|exact Hnil]). reflexivity.
  - rewrite decide_False by (intros [_ ?]; contradiction). reflexivity.
Qed.

Local Abbreviation list_handler_of repoSlug :=
  (fun reply : error + list Milestone =>
     match reply with
     | inl err => Async.Done (inl (set_err_repo (repo_tag repoSlug) err))
     | inr milestones =>
         Async.Done (inr (set_milestone_repo (repo_tag repoSlug) <$> milestones))
     end).

Local Abbreviation list_pending_of gh me w :=
  (imap (fun i r =>
           list_handler_of r
             (getAllMilestones gh (length (calls w) + i)
                (repo_fields (r !! 0%nat) (r !! 1%nat))))
        (repos me)).

Lemma getMilestones_success gh me sched w (results : list (list Milestone)) :
  sched ≡ₚ seq 0 (length (repos me)) ->
  milestone_replies me gh w = inr <$> results ->
  fst (getMilestones me gh sched w) =
  Called None (Some (Underscore.groupBy title (tagged_milestones me results))).
Proof.
  intros Hperm Hreplies.
  assert (Hlen : length results = length (repos me)).
  { apply (f_equal length) in Hreplies. unfold milestone_replies in Hreplies.
    rewrite length_imap, length_fmap in Hreplies. lia. }
  rewrite getMilestones_run. cbn [fst].
  set (vs := zip_with (fun r ms => set_milestone_repo (repo_tag r) <$> ms)
               (repos me) results).
  assert (Hpending : list_pending_of gh me w =
                     (fun v => Async.Done (inr v)) <$> vs).
  { apply list_eq. intros i.
    assert (Hi := f_equal (fun l => l !! i) Hreplies). simpl in Hi.
    unfold milestone_replies in Hi.
    rewrite list_lookup_imap, list_lookup_fmap in Hi.
    unfold vs. rewrite list_lookup_imap, list_lookup_fmap, lookup_zip_with.
    destruct (repos me !! i) as [r|], (results !! i) as [ms|];
      simpl in *; try discriminate; [|reflexivity].
    injection Hi as ->. reflexivity. }
  rewrite Hpending, settled_all_done.
  - unfold milestones_outcome, Underscore.flatten, tagged_milestones.
    simpl default. fold vs. do 4 f_equal.
    change (map ?f ?l) with (f <$> l).
    rewrite <- list_fmap_compose.
    rewrite (list_fmap_ext _ id vs) by reflexivity.
    rewrite list_fmap_id. reflexivity.
  - unfold vs. rewrite length_zip_with, Hlen, Nat.min_id. exact Hperm.
Qed.

(** X7: [getMilestones] issues one listing request per configured repo, in
    repo order, whatever the replies; each message is an object of its own
    holding just that repo's [user] and [repo], and the objects that existed
    before the call are left as they were. *)
Theorem getMilestones_requests me gh sched w :
  let w' := snd (getMilestones me gh sched w) in
  requests_since w w' =
    imap (fun i repoSlug =>
            {| call_op := GetAllMilestones;
               call_payload := length (heap w) + i;
               call_seen := repo_fields (repoSlug !! 0%nat) (repoSlug !! 1%nat) |})
         (repos me) /\
  (forall (repoSlug : list string) k,
     repo_fields (repoSlug !! 0%nat) (repoSlug !! 1%nat) !! k =
     if decide (k = "user") then Some (Js.of_string (repoSlug !! 0%nat))
     else if decide (k = "repo") then Some (Js.of_string (repoSlug !! 1%nat))
          else None) /\
  (forall l o, heap w !! l = Some o -> heap w' !! l = Some o).
Proof.
  intros w'. subst w'. rewrite getMilestones_run. cbn [snd].
  split; [unfold requests_since; cbn [calls]; apply drop_app_length|].
  split.
  - intros repoSlug k.
    destruct (decide (k = "user")) as [->|Hu]; [reflexivity|].
    destruct (decide (k = "repo")) as [->|Hr]; [reflexivity|].
    apply repo_fields_lookup_other; assumption.
  - intros l o Hl. cbn [heap]. apply lookup_app_l_Some. exact Hl.
Qed.

(** X8: when every listing succeeds, the callback receives the milestones
    grouped by exact title: the group of a title holds the tagged milestones
    of that title from all repos, in encounter order, and a title no
    milestone has is not a key.  (The name [__proto__] is set apart: as a key
    it is not an ordinary property.) *)
Theorem getMilestones_groups me gh sched w (results : list (list Milestone)) :
  sched ≡ₚ seq 0 (length (repos me)) ->
  milestone_replies me gh w = inr <$> results ->
  exists groups,
    fst (getMilestones me gh sched w) = Called None (Some groups) /\
    forall t,
      t <> "__proto__" ->
      groups !! t =
      if decide (filter (fun m => title m = t) (tagged_milestones me results) = [])
      then None
      else Some (filter (fun m => title m = t) (tagged_milestones me results)).
Proof.
  intros Hperm Hreplies. eexists. split.
  - apply getMilestones_success; eassumption.
  - intros t _. apply groupBy_lookup.
Qed.

Lemma getMilestones_groups_witness :
  exists groups,
    fst (getMilestones sample_me (sample_gh false false false) [1; 0]%nat sample_world) =
      Called None (Some groups) /\
    groups !! "Sprint 1" =
      Some [set_milestone_repo "a/x" (sample_milestone 7 "Sprint 1");
            set_milestone_repo "b/y" (sample_milestone 3 "Sprint 1")] /\
    groups !! "sprint 1" = None.
Proof.
  destruct (getMilestones_groups sample_me (sample_gh false false false) [1; 0]%nat
              sample_world [[sample_milestone 7 "Sprint 1"]; [sample_milestone 3 "Sprint 1"]])
    as (groups & Hrun & Hgroups).
  - apply perm_swap.
  - reflexivity.
  - exists groups. split; [exact Hrun|].
    rewrite !Hgroups by discriminate. split; reflexivity.
Defined.

Lemma list_pending_of_reply gh me w i reply :
  milestone_replies me gh w !! i = Some reply ->
  exists r,
    repos me !! i = Some r /\
    list_pending_of gh me w !! i = Some (list_handler_of r reply).
Proof.
  unfold milestone_replies. rewrite !list_lookup_imap.
  destruct (repos me !! i) as [r|]; [|discriminate].
  simpl. intros [= <-]. exists r. split; reflexivity.
Qed.

(** X9: when listings fail, the callback of [getMilestones] receives the
    error of the failing reply that arrives first, with the slug of its repo
    attached, and no groups. *)
Theorem getMilestones_first_error_wins me gh s1 s2 k w repoSlug err :
  NoDup (s1 ++ [k]) ->
  repos me !! k = Some repoSlug ->
  milestone_replies me gh w !! k = Some (inl err) ->
  (forall i, i ∈ s1 -> exists ms, milestone_replies me gh w !! i = Some (inr ms)) ->
  fst (getMilestones me gh (s1 ++ k :: s2) w) =
  Called (Some {| message := message err; err_repo := Some (repo_tag repoSlug) |}) None.
Proof.
  intros Hnd Hrepo Hk Hok.
  rewrite getMilestones_run. cbn [fst].
  set (pending := list_pending_of gh me w).
  assert (Hpk : pending !! k =
                Some (Async.Done (inl (set_err_repo (repo_tag repoSlug) err)))).
  { destruct (list_pending_of_reply gh me w k _ Hk) as (r & Hr & Hp).
    rewrite Hrepo in Hr. injection Hr as <-. exact Hp. }
  assert (Hps : forall i, i ∈ s1 -> exists v, pending !! i = Some (Async.Done (inr v))).
  { intros i Hi. destruct (Hok i Hi) as [ms Hms].
    destruct (list_pending_of_reply gh me w i _ Hms) as (r & _ & Hp). eauto. }
  assert (Hshort : length s1 < length pending).
  { assert (Hsub : s1 ++ [k] ⊆+ seq 0 (length pending)).
    { apply NoDup_submseteq; [exact Hnd|]. intros i Hi.
      apply elem_of_seq. split; [lia|]. simpl.
      apply elem_of_app in Hi as [Hi|Hi].
      - destruct (Hps i Hi) as [v Hv]. eapply lookup_lt_Some. exact Hv.
      - apply list_elem_of_singleton in Hi as ->. eapply lookup_lt_Some. exact Hpk. }
    apply submseteq_length in Hsub.
    rewrite length_app, length_seq in Hsub. simpl in Hsub. lia. }
  destruct (settled_first_error pending s1 s2 k _ Hpk Hps Hshort) as [partial Hs].
  change (milestones_outcome (settled pending (s1 ++ k :: s2)) =
          Called (Some (set_err_repo (repo_tag repoSlug) err)) None).
  rewrite Hs. reflexivity.
Qed.

Lemma getMilestones_first_error_wins_witness :
  fst (getMilestones sample_me (sample_gh false true false) ([0] ++ 1 :: [])%nat
         sample_world) =
  Called (Some {| message := "boom"; err_repo := Some "b/y" |}) None.
Proof.
  apply (getMilestones_first_error_wins sample_me (sample_gh false true false)
           [0]%nat [] 1%nat sample_world ["b"; "y"] boom).
  - change (NoDup [0; 1]%nat). apply NoDup_cons. split; [|apply NoDup_singleton].
    apply not_elem_of_cons. split; [discriminate|apply not_elem_of_nil].
  - reflexivity.
  - reflexivity.
  - intros i Hi. apply list_elem_of_singleton in Hi as ->. eexists. reflexivity.
Defined.

(** ** closeMilestones: the updates *)

Section CloseMilestones.
Context (gh : github).

Local Abbreviation update_handler :=
  (fun reply : error + Milestone =>
     match reply with
     | inl err => Async.Raise (ReferenceError "org")
     | inr resp => Async.Done (inr resp)
     end).

Local Abbreviation update_task :=
  (fun m : Milestone =>
     payload <- alloc (update_fields m) ;;
     reply <- request UpdateMilestone (updateMilestone gh) payload ;;
     ret (match reply with
          | inl err => Async.Raise (ReferenceError "org")
          | inr resp => Async.Done (inr resp)
          end)).

Local Abbreviation update_call base :=
  (fun (j : nat) (m : Milestone) =>
     {| call_op := UpdateMilestone;
        call_payload := base + j;
        call_seen := update_fields m |}).

Lemma updater_tagged m :
  is_Some (ms_repo m) -> updater gh (Some m) = inr (update_task m).
Proof.
  intros [r Hr]. unfold updater, update_fields. rewrite Hr. reflexivity.
Qed.

Lemma map_items_updaters ms :
  Forall (fun m => is_Some (ms_repo m)) ms ->
  Underscore.map_items (updater gh) (map Some ms) = inr (map update_task ms).
Proof.
  induction 1 as [|m ms Hm _ IH]; [reflexivity|].
  cbn [map Underscore.map_items]. rewrite (updater_tagged m Hm), IH. reflexivity.
Qed.

Lemma update_task_run m w :
  update_task m w =
    (update_handler (updateMilestone gh (length (calls w)) (update_fields m)),
     {| heap := heap w ++ [update_fields m];
        calls := calls w ++ [update_call (length (heap w)) 0%nat m] |}).
Proof.
  unfold bind, alloc, request, ret. cbn [heap calls fst snd].
  rewrite lookup_app_r, Nat.sub_diag by lia. cbn [lookup list_lookup default from_option].
  rewrite Nat.add_0_r. reflexivity.
Qed.

Lemma dispatch_update_tasks ms : forall w,
  Async.dispatch (map update_task ms) w =
    (imap (fun j m =>
             update_handler (updateMilestone gh (length (calls w) + j) (update_fields m)))
          ms,
     {| heap := heap w ++ map update_fields ms;
        calls := calls w ++ imap (update_call (length (heap w))) ms |}).
Proof.
  induction ms as [|m ms IH]; intros w.
  - simpl. unfold ret. rewrite !app_nil_r. destruct w; reflexivity.
  - change (map update_task (m :: ms)) with (update_task m :: map update_task ms).
    rewrite Async_dispatch_cons, update_task_run, IH.
    cbn [heap calls map]. rewrite !imap_cons, <- !app_assoc.
    f_equal; [f_equal|f_equal; f_equal; f_equal].
    + rewrite Nat.add_0_r. reflexivity.
    + apply imap_ext. intros i x _. simpl. rewrite length_app. simpl.
      replace (length (calls w) + 1 + i) with (length (calls w) + S i) by lia.
      reflexivity.
    + apply imap_ext. intros i x _. simpl. rewrite length_app. simpl.
      replace (length (heap w) + 1 + i) with (length (heap w) + S i) by lia.
      reflexivity.
Qed.

(** The run of [closeMilestones] once the listing has produced a group for
    the title. *)
Lemma closeMilestones_run_matches me sched1 sched2 t w groups matches :
  fst (getMilestones me gh sched1 w) = Called None (Some groups) ->
  groups !! t = Some matches ->
  Forall (fun m => is_Some (ms_repo m)) matches ->
  let w1 := snd (getMilestones me gh sched1 w) in
  closeMilestones me gh sched1 sched2 t w =
    (settled
       (imap (fun j m =>
                update_handler
                  (updateMilestone gh (length (calls w1) + j) (update_fields m)))
             matches)
       sched2,
     {| heap := heap w1 ++ map update_fields matches;
        calls := calls w1 ++ imap (update_call (length (heap w1))) matches |}).
Proof.
  intros Hok Hgroup Htagged w1. subst w1. unfold closeMilestones, bind.
  destruct (getMilestones me gh sched1 w) as [r w1]. cbn [fst snd] in *. subst r.
  cbn iota beta. unfold Js.get. rewrite Hgroup.
  cbn [Js.truthy negb Underscore.map_property].
  rewrite (map_items_updaters matches Htagged).
  rewrite Async_parallel_settled, dispatch_update_tasks. reflexivity.
Qed.

End CloseMilestones.

Lemma tagged_milestones_tagged me (results : list (list Milestone)) :
  Forall (fun m => is_Some (ms_repo m)) (tagged_milestones me results).
Proof.
  apply Forall_forall. intros m Hm. unfold tagged_milestones in Hm.
  apply list_elem_of_In, in_concat in Hm as (tagged & Htagged & Hin).
  apply list_elem_of_In, elem_of_lookup_zip_with in Htagged
    as (i & r & ms & -> & _ & _).
  apply list_elem_of_In, list_elem_of_fmap in Hin as (raw & -> & _).
  simpl. eauto.
Qed.

Lemma update_fields_lookup m :
  update_fields m !! "number" = Some (VNum (number m)) /\
  update_fields m !! "title" = Some (VStr (title m)) /\
  update_fields m !! "state" = Some (VStr "closed").
Proof.
  unfold update_fields, close_fields. split; [|split]; reflexivity.
Qed.

Lemma closeMilestones_group me gh sched1 t w (results : list (list Milestone)) :
  sched1 ≡ₚ seq 0 (length (repos me)) ->
  milestone_replies me gh w = inr <$> results ->
  let matches := filter (fun m => title m = t) (tagged_milestones me results) in
  matches <> [] ->
  fst (getMilestones me gh sched1 w) =
    Called None (Some (Underscore.groupBy title (tagged_milestones me results))) /\
  Underscore.groupBy title (tagged_milestones me results) !! t = Some matches /\
  Forall (fun m => is_Some (ms_repo m)) matches.
Proof.
  intros Hperm1 Hreplies matches Hne.
  split; [apply getMilestones_success; assumption|]. split.
  - rewrite groupBy_lookup. fold matches. rewrite decide_False by exact Hne. reflexivity.
  - apply Forall_forall. intros m Hm.
    apply list_elem_of_filter in Hm as [_ Hm].
    pose proof (tagged_milestones_tagged me results) as Hall.
    rewrite Forall_forall in Hall. apply Hall. exact Hm.
Qed.

(** X10: when a title (other than [__proto__], which is no ordinary key)
    has matching milestones, [closeMilestones] sends one
    update per matching milestone after the listing, in the order of the
    group and whatever the update replies are; each message is an object of
    its own with the milestone's [number] and [title] and [state: 'closed']. *)
Theorem closeMilestones_update_requests me gh sched1 sched2 t w
    (results : list (list Milestone)) :
  t <> "__proto__" ->
  sched1 ≡ₚ seq 0 (length (repos me)) ->
  milestone_replies me gh w = inr <$> results ->
  let matches := filter (fun m => title m = t) (tagged_milestones me results) in
  matches <> [] ->
  drop (length (repos me))
    (requests_since w (snd (closeMilestones me gh sched1 sched2 t w))) =
    imap (fun j m =>
            {| call_op := UpdateMilestone;
               call_payload := length (heap w) + length (repos me) + j;
               call_seen := update_fields m |})
         matches /\
  Forall (fun m =>
            update_fields m !! "number" = Some (VNum (number m)) /\
            update_fields m !! "title" = Some (VStr (title m)) /\
            update_fields m !! "state" = Some (VStr "closed"))
    matches.
Proof.
  intros _ Hperm1 Hreplies matches Hne.
  destruct (closeMilestones_group me gh sched1 t w results Hperm1 Hreplies Hne)
    as (Hlist & Hgroup & Htagged).
  rewrite (closeMilestones_run_matches gh me sched1 sched2 t w _ matches
             Hlist Hgroup Htagged).
  rewrite getMilestones_run. cbn [fst snd heap calls].
  rewrite !length_app, length_map.
  split.
  - unfold requests_since. cbn [calls].
    rewrite <- app_assoc, drop_app_length.
    rewrite drop_app_length'; [reflexivity|]. rewrite length_imap. reflexivity.
  - apply Forall_forall. intros m _. apply update_fields_lookup.
Qed.

Lemma closeMilestones_update_requests_witness :
  call_op <$>
    calls (snd (closeMilestones sample_me (sample_gh false false true) [1; 0]%nat [1; 0]%nat
                  "Sprint 1" sample_world)) =
  [GetAllMilestones; GetAllMilestones; UpdateMilestone; UpdateMilestone].
Proof.
  destruct (closeMilestones_update_requests sample_me (sample_gh false false true)
              [1; 0]%nat [1; 0]%nat "Sprint 1" sample_world
              [[sample_milestone 7 "Sprint 1"]; [sample_milestone 3 "Sprint 1"]])
    as (Hrequests & _).
  - discriminate.
  - apply perm_swap.
  - reflexivity.
  - vm_compute. discriminate.
  - vm_compute. reflexivity.
Defined.

(** X11: when moreover every update succeeds, the callback receives the
    updated milestones, one per matching milestone, in the order of the
    group (again for a title other than [__proto__]). *)
Theorem closeMilestones_closes_matches me gh sched1 sched2 t w
    (results : list (list Milestone)) (updated : list Milestone) :
  t <> "__proto__" ->
  sched1 ≡ₚ seq 0 (length (repos me)) ->
  milestone_replies me gh w = inr <$> results ->
  let matches := filter (fun m => title m = t) (tagged_milestones me results) in
  matches <> [] ->
  sched2 ≡ₚ seq 0 (length matches) ->
  update_replies me gh w matches = inr <$> updated ->
  fst (closeMilestones me gh sched1 sched2 t w) = Called None (Some (Some <$> updated)).
Proof.
  intros _ Hperm1 Hreplies matches Hne Hperm2 Hupdated.
  assert (Hlen : length updated = length matches).
  { apply (f_equal length) in Hupdated. unfold update_replies in Hupdated.
    rewrite length_imap, length_fmap in Hupdated. lia. }
  destruct (closeMilestones_group me gh sched1 t w results Hperm1 Hreplies Hne)
    as (Hlist & Hgroup & Htagged).
  rewrite (closeMilestones_run_matches gh me sched1 sched2 t w _ matches
             Hlist Hgroup Htagged).
  rewrite getMilestones_run. cbn [fst snd heap calls].
  rewrite !length_app, length_imap.
  match goal with
  | |- settled ?pending sched2 = _ =>
      replace pending with ((fun v : Milestone => Async.Done (inr v)) <$> updated)
  end.
  - apply settled_all_done. rewrite Hlen. exact Hperm2.
  - apply list_eq. intros j.
    assert (Hj := f_equal (fun l => l !! j) Hupdated). simpl in Hj.
    unfold update_replies in Hj.
    rewrite list_lookup_imap, list_lookup_fmap in Hj.
    rewrite list_lookup_imap, list_lookup_fmap.
    destruct (matches !! j) as [m|], (updated !! j) as [u|];
      simpl in *; try discriminate; [|reflexivity].
    injection Hj as ->. reflexivity.
Qed.

Lemma closeMilestones_closes_matches_witness :
  fst (closeMilestones sample_me (sample_gh false false false) [1; 0]%nat [1; 0]%nat
         "Sprint 1" sample_world) =
  Called None (Some [Some (sample_milestone 7 "Sprint 1");
                     Some (sample_milestone 3 "Sprint 1")]).
Proof.
  apply (closeMilestones_closes_matches sample_me (sample_gh false false false)
           [1; 0]%nat [1; 0]%nat "Sprint 1" sample_world
           [[sample_milestone 7 "Sprint 1"]; [sample_milestone 3 "Sprint 1"]]
           [sample_milestone 7 "Sprint 1"; sample_milestone 3 "Sprint 1"]).
  - discriminate.
  - apply perm_swap.
  - reflexivity.
  - vm_compute. discriminate.
  - apply perm_swap.
  - vm_compute. reflexivity.
Defined.

Lemma filter_none {A} (P : A -> Prop) `{forall x, Decision (P x)} (l : list A) :
  Forall (fun x => ~ P x) l -> filter P l = [].
Proof.
  induction 1 as [|x l Hx _ IH]; [reflexivity|].
  rewrite (filter_cons P), decide_False by exact Hx. exact IH.
Qed.

(** X12: a title that no listed milestone has and that names no inherited
    member is a miss: the callback receives the empty list, and the listing
    requests are the only requests of the call.  (No listed milestone is
    titled [__proto__], which would change what the groups inherit.) *)
Theorem closeMilestones_unknown_title me gh sched1 sched2 t w
    (results : list (list Milestone)) :
  sched1 ≡ₚ seq 0 (length (repos me)) ->
  milestone_replies me gh w = inr <$> results ->
  Forall (fun m => title m <> t /\ title m <> "__proto__") (concat results) ->
  Js.assoc t Js.object_prototype = None ->
  let run := closeMilestones me gh sched1 sched2 t w in
  fst run = Called None (Some []) /\
  Forall (fun c => call_op c = GetAllMilestones) (requests_since w (snd run)) /\
  length (requests_since w (snd run)) = length (repos me).
Proof.
  intros Hperm1 Hreplies Hnone Hproto run. subst run.
  pose proof (getMilestones_success gh me sched1 w results Hperm1 Hreplies) as Hlist.
  assert (Hmiss : Underscore.groupBy title (tagged_milestones me results) !! t = None).
  { rewrite groupBy_lookup. rewrite decide_True; [reflexivity|].
    apply filter_none, Forall_forall. intros m Hm.
    unfold tagged_milestones in Hm.
    apply list_elem_of_In, in_concat in Hm as (tagged & Htagged & Hin).
    apply list_elem_of_In, elem_of_lookup_zip_with in Htagged
      as (i & r & ms & -> & _ & Hms).
    apply list_elem_of_In, list_elem_of_fmap in Hin as (raw & -> & Hraw).
    simpl. rewrite Forall_forall in Hnone. apply (Hnone raw).
    apply list_elem_of_In, in_concat. exists ms. split; apply list_elem_of_In.
    - apply list_elem_of_lookup. eauto.
    - exact Hraw. }
  rewrite (closeMilestones_miss me gh sched1 sched2 t w _ Hlist).
  2:{ unfold Js.get. rewrite Hmiss, Hproto. reflexivity. }
  cbn [fst snd]. split; [reflexivity|].
  rewrite getMilestones_run. unfold requests_since. cbn [snd calls].
  rewrite drop_app_length. split; [|apply length_imap].
  apply Forall_forall. intros c Hc.
  apply list_elem_of_lookup in Hc as [i Hc]. rewrite list_lookup_imap in Hc.
  destruct (repos me !! i); [|discriminate]. injection Hc as <-. reflexivity.
Qed.

Lemma closeMilestones_unknown_title_witness :
  fst (closeMilestones sample_me (sample_gh false false false) [1; 0]%nat [] "Sprint 9"
         sample_world) = Called None (Some []).
Proof.
  destruct (closeMilestones_unknown_title sample_me (sample_gh false false false)
              [1; 0]%nat [] "Sprint 9" sample_world
              [[sample_milestone 7 "Sprint 1"]; [sample_milestone 3 "Sprint 1"]])
    as (Hrun & _).
  - apply perm_swap.
  - reflexivity.
  - repeat constructor; discriminate.
  - reflexivity.
  - exact Hrun.
Defined.

(** The requests of a [closeMilestones] call whose title has matching
    milestones: the listing requests, then the updates. *)
Lemma closeMilestones_requests me gh sched1 sched2 t w (results : list (list Milestone)) :
  sched1 ≡ₚ seq 0 (length (repos me)) ->
  milestone_replies me gh w = inr <$> results ->
  let matches := filter (fun m => title m = t) (tagged_milestones me results) in
  matches <> [] ->
  requests_since w (snd (closeMilestones me gh sched1 sched2 t w)) =
    imap (fun i repoSlug =>
            {| call_op := GetAllMilestones;
               call_payload := length (heap w) + i;
               call_seen := repo_fields (repoSlug !! 0%nat) (repoSlug !! 1%nat) |})
         (repos me) ++
    imap (fun j m =>
            {| call_op := UpdateMilestone;
               call_payload := length (heap w) + length (repos me) + j;
               call_seen := update_fields m |})
         matches.
Proof.
  intros Hperm1 Hreplies matches Hne.
  destruct (closeMilestones_group me gh sched1 t w results Hperm1 Hreplies Hne)
    as (Hlist & Hgroup & Htagged).
  rewrite (closeMilestones_run_matches gh me sched1 sched2 t w _ matches
             Hlist Hgroup Htagged).
  rewrite getMilestones_run. cbn [fst snd heap calls].
  rewrite !length_app, length_map.
  unfold requests_since. cbn [calls].
  rewrite <- app_assoc, drop_app_length. reflexivity.
Qed.

(** A matching milestone listed by the repo at position [i] has its listing
    request at position [i] and an update request of its own, whose message
    is built from the tag the listing put on it. *)
Lemma closeMilestones_update_of_listed me gh sched1 sched2 t w
    (results : list (list Milestone)) i r ms m :
  sched1 ≡ₚ seq 0 (length (repos me)) ->
  milestone_replies me gh w = inr <$> results ->
  repos me !! i = Some r ->
  results !! i = Some ms ->
  m ∈ ms ->
  title m = t ->
  let requests := requests_since w (snd (closeMilestones me gh sched1 sched2 t w)) in
  requests !! i =
    Some {| call_op := GetAllMilestones;
            call_payload := length (heap w) + i;
            call_seen := repo_fields (r !! 0%nat) (r !! 1%nat) |} /\
  exists j,
    requests !! (length (repos me) + j)%nat =
    Some {| call_op := UpdateMilestone;
            call_payload := length (heap w) + length (repos me) + j;
            call_seen := update_fields (set_milestone_repo (repo_tag r) m) |}.
Proof.
  intros Hperm1 Hreplies Hr Hms Hm Ht requests. subst requests.
  set (tagged := set_milestone_repo (repo_tag r) m).
  assert (Hin : tagged ∈ filter (fun m => title m = t) (tagged_milestones me results)).
  { apply list_elem_of_filter. split; [exact Ht|].
    unfold tagged_milestones.
    apply list_elem_of_In, in_concat.
    exists (set_milestone_repo (repo_tag r) <$> ms). split; apply list_elem_of_In.
    - apply elem_of_lookup_zip_with. exists i, r, ms. auto.
    - apply list_elem_of_fmap. exists m. split; [reflexivity|exact Hm]. }
  rewrite (closeMilestones_requests me gh sched1 sched2 t w results Hperm1 Hreplies).
  2:{ intros Hnil. rewrite Hnil in Hin. inversion Hin. }
  split.
  - rewrite lookup_app_l by (rewrite length_imap; eapply lookup_lt_Some; exact Hr).
    rewrite list_lookup_imap, Hr. reflexivity.
  - apply list_elem_of_lookup in Hin as [j Hj]. exists j.
    rewrite lookup_app_r by (rewrite length_imap; lia).
    rewrite length_imap, Nat.add_comm, Nat.add_sub.
    rewrite list_lookup_imap, Hj. reflexivity.
Qed.

(** X13: [closeMilestones] finds the repo of a milestone again by splitting
    the tag the listing put on it.  For a configured entry whose first two
    parts hold no slash, every matching milestone that the repo listed gets an
    update request addressed to the same [user] and [repo] as the listing
    request of that repo.  (The title is not [__proto__], which is no
    ordinary key of the groups.) *)
Theorem update_targets_listed_repo me gh sched1 sched2 t w
    (results : list (list Milestone)) i org repo rest ms m :
  t <> "__proto__" ->
  sched1 ≡ₚ seq 0 (length (repos me)) ->
  milestone_replies me gh w = inr <$> results ->
  repos me !! i = Some (org :: repo :: rest) ->
  Js.includes "/" org = false ->
  Js.includes "/" repo = false ->
  results !! i = Some ms ->
  m ∈ ms ->
  title m = t ->
  let requests := requests_since w (snd (closeMilestones me gh sched1 sched2 t w)) in
  (exists listing,
     requests !! i = Some listing /\
     call_op listing = GetAllMilestones /\
     call_seen listing !! "user" = Some (VStr org) /\
     call_seen listing !! "repo" = Some (VStr repo)) /\
  (exists j update,
     requests !! (length (repos me) + j)%nat = Some update /\
     call_op update = UpdateMilestone /\
     call_seen update !! "user" = Some (VStr org) /\
     call_seen update !! "repo" = Some (VStr repo) /\
     call_seen update !! "number" = Some (VNum (number m)) /\
     call_seen update !! "title" = Some (VStr t)).
Proof.
  intros _ Hperm1 Hreplies Hr Ho Hrepo Hms Hm Ht requests. subst requests.
  destruct (closeMilestones_update_of_listed me gh sched1 sched2 t w results i _ ms m
              Hperm1 Hreplies Hr Hms Hm Ht) as (Hlisting & j & Hupdate).
  split.
  - eexists. split; [exact Hlisting|]. split; [|split]; reflexivity.
  - eexists j, _. split; [exact Hupdate|]. split; [reflexivity|].
    cbn [call_seen]. unfold update_fields, repo_tag, slug_of.
    cbn [ms_repo set_milestone_repo lookup list_lookup Js.to_str].
    rewrite (split_slug org repo Ho Hrepo). subst t.
    split; [|split; [|split]]; reflexivity.
Qed.

Lemma update_targets_listed_repo_witness :
  let requests :=
    requests_since sample_world
      (snd (closeMilestones sample_me (sample_gh false false false) [1; 0]%nat [0; 1]%nat
              "Sprint 1" sample_world)) in
  (exists listing,
     requests !! 1%nat = Some listing /\
     call_op listing = GetAllMilestones /\
     call_seen listing !! "user" = Some (VStr "b") /\
     call_seen listing !! "repo" = Some (VStr "y")) /\
  (exists j update,
     requests !! (2 + j)%nat = Some update /\
     call_op update = UpdateMilestone /\
     call_seen update !! "user" = Some (VStr "b") /\
     call_seen update !! "repo" = Some (VStr "y") /\
     call_seen update !! "number" = Some (VNum 3) /\
     call_seen update !! "title" = Some (VStr "Sprint 1")).
Proof.
  apply (update_targets_listed_repo sample_me (sample_gh false false false)
           [1; 0]%nat [0; 1]%nat "Sprint 1" sample_world
           [[sample_milestone 7 "Sprint 1"]; [sample_milestone 3 "Sprint 1"]]
           1%nat "b" "y" [] [sample_milestone 3 "Sprint 1"] (sample_milestone 3 "Sprint 1")).
  - discriminate.
  - apply perm_swap.
  - reflexivity.
  - reflexivity.
  - reflexivity.
  - reflexivity.
  - reflexivity.
  - apply list_elem_of_singleton. reflexivity.
  - reflexivity.
Defined.

(** X14: for a configured slug without slash the entry has one part.  The
    listing request of that repo is sent with [repo] undefined; its
    milestones are tagged [org/undefined], and the update request of every
    matching milestone it listed is sent with the string ["undefined"] as
    [repo].  (The title is not [__proto__].) *)
Theorem update_of_one_part_slug me gh sched1 sched2 t w
    (results : list (list Milestone)) i org ms m :
  t <> "__proto__" ->
  sched1 ≡ₚ seq 0 (length (repos me)) ->
  milestone_replies me gh w = inr <$> results ->
  repos me !! i = Some [org] ->
  Js.includes "/" org = false ->
  results !! i = Some ms ->
  m ∈ ms ->
  title m = t ->
  let requests := requests_since w (snd (closeMilestones me gh sched1 sched2 t w)) in
  (exists listing,
     requests !! i = Some listing /\
     call_op listing = GetAllMilestones /\
     call_seen listing !! "user" = Some (VStr org) /\
     call_seen listing !! "repo" = Some VUndef) /\
  (exists j update,
     requests !! (length (repos me) + j)%nat = Some update /\
     call_op update = UpdateMilestone /\
     call_seen update !! "user" = Some (VStr org) /\
     call_seen update !! "repo" = Some (VStr "undefined") /\
     call_seen update !! "number" = Some (VNum (number m)) /\
     call_seen update !! "title" = Some (VStr t)).
Proof.
  intros _ Hperm1 Hreplies Hr Ho Hms Hm Ht requests. subst requests.
  destruct (closeMilestones_update_of_listed me gh sched1 sched2 t w results i _ ms m
              Hperm1 Hreplies Hr Hms Hm Ht) as (Hlisting & j & Hupdate).
  split.
  - eexists. split; [exact Hlisting|]. split; [|split]; reflexivity.
  - eexists j, _. split; [exact Hupdate|]. split; [reflexivity|].
    cbn [call_seen]. unfold update_fields, repo_tag, slug_of.
    cbn [ms_repo set_milestone_repo lookup list_lookup Js.to_str].
    change ("/" +:+ "undefined") with (String "/" "undefined").
    rewrite (split_at_first_separator _ _ _ Ho). subst t.
    split; [|split; [|split]]; reflexivity.
Qed.

Lemma update_of_one_part_slug_witness :
  let me := {| username := "user"; password := "secret";
               repos := convertSlugsToObjects ["abc"] |} in
  let requests :=
    requests_since sample_world
      (snd (closeMilestones me (sample_gh false false false) [0]%nat [0]%nat
              "Sprint 1" sample_world)) in
  (exists listing,
     requests !! 0%nat = Some listing /\
     call_op listing = GetAllMilestones /\
     call_seen listing !! "user" = Some (VStr "abc") /\
     call_seen listing !! "repo" = Some VUndef) /\
  (exists j update,
     requests !! (1 + j)%nat = Some update /\
     call_op update = UpdateMilestone /\
     call_seen update !! "user" = Some (VStr "abc") /\
     call_seen update !! "repo" = Some (VStr "undefined") /\
     call_seen update !! "number" = Some (VNum 3) /\
     call_seen update !! "title" = Some (VStr "Sprint 1")).
Proof.
  intros me.
  apply (update_of_one_part_slug me (sample_gh false false false)
           [0]%nat [0]%nat "Sprint 1" sample_world
           [[sample_milestone 3 "Sprint 1"]]
           0%nat "abc" [sample_milestone 3 "Sprint 1"] (sample_milestone 3 "Sprint 1")).
  - discriminate.
  - reflexivity.
  - reflexivity.
  - reflexivity.
  - reflexivity.
  - reflexivity.
  - apply list_elem_of_singleton. reflexivity.
  - reflexivity.
Defined.

(** X13 and X14 on the samples: the whole request logs. *)
Lemma closeMilestones_requests_on_sample :
  call_seen <$>
    calls (snd (closeMilestones sample_me (sample_gh false false false) [1; 0]%nat
                  [0; 1]%nat "Sprint 1" sample_world)) =
    [ <["user" := VStr "a"]> {["repo" := VStr "x"]};
      <["user" := VStr "b"]> {["repo" := VStr "y"]};
      <["user" := VStr "a"]>
        (<["repo" := VStr "x"]>
           (<["number" := VNum 7]>
              (<["title" := VStr "Sprint 1"]> {["state" := VStr "closed"]})));
      <["user" := VStr "b"]>
        (<["repo" := VStr "y"]>
           (<["number" := VNum 3]>
              (<["title" := VStr "Sprint 1"]> {["state" := VStr "closed"]}))) ] /\
  call_seen <$>
    calls (snd (closeMilestones
                  {| username := "user"; password := "secret";
                     repos := convertSlugsToObjects ["abc"] |}
                  (sample_gh false false false) [0]%nat [0]%nat "Sprint 1" sample_world)) =
    [ <["user" := VStr "abc"]> {["repo" := VUndef]};
      <["user" := VStr "abc"]>
        (<["repo" := VStr "undefined"]>
           (<["number" := VNum 3]>
              (<["title" := VStr "Sprint 1"]> {["state" := VStr "closed"]}))) ].
Proof. vm_compute. split; reflexivity. Qed.

(** ** createMilestones: failure *)

Lemma max_list_succ (l : list nat) : l <> [] -> max_list (S <$> l) = S (max_list l).
Proof.
  induction l as [|x l IH]; [congruence|]. intros _.
  destruct l as [|y l]; [simpl; unfold id; lia|].
  rewrite fmap_cons. cbn [max_list_with]. rewrite IH by discriminate.
  cbn [max_list_with]. unfold id. lia.
Qed.

Section DeliverPartial.
Context {T : Type}.
Implicit Types (pending : list (Async.handled T)) (results : list (option T)).

(** What the task callback of a reply stores: the task's result, or
    [undefined] beside an error. *)
Local Abbreviation reported pending :=
  (fun i : nat =>
     match pending !! i with
     | Some (Async.Done (inr v)) => Some v
     | _ => None
     end).

Local Abbreviation store pending :=
  (fun results (i : nat) => Js.set_index i (reported pending i) results).

(** The results handed over with the first error are those stored by the
    replies up to it, the failing one included. *)
Lemma deliver_first_error_partial n pending s1 s2 k err :
  pending !! k = Some (Async.Done (inl err)) ->
  (forall i, i ∈ s1 -> exists v, pending !! i = Some (Async.Done (inr v))) ->
  forall results completed,
    completed + length s1 < n ->
    Async.deliver n pending (s1 ++ k :: s2) results completed =
    Called (Some err) (Some (foldl (store pending) results (s1 ++ [k]))).
Proof.
  intros Hk. induction s1 as [|i s1 IH]; intros Hok results completed Hlt.
  - simpl. rewrite Hk. reflexivity.
  - cbn [app Async.deliver foldl]. destruct (Hok i) as [v Hv]; [left|]. rewrite Hv.
    simpl in Hlt. rewrite decide_False by lia.
    rewrite IH; [reflexivity| |lia]. intros j Hj. apply Hok. right. exact Hj.
Qed.

Lemma settled_first_error_partial pending s1 s2 k err :
  pending !! k = Some (Async.Done (inl err)) ->
  (forall i, i ∈ s1 -> exists v, pending !! i = Some (Async.Done (inr v))) ->
  length s1 < length pending ->
  exists partial,
    settled pending (s1 ++ k :: s2) = Called (Some err) (Some partial) /\
    length partial = S (max_list (k :: s1)) /\
    forall i v,
      Js.index partial i = Some v <->
      i ∈ s1 /\ pending !! i = Some (Async.Done (inr v)).
Proof.
  intros Hk Hok Hlt. destruct pending as [|h hs]; [discriminate|].
  set (pending := h :: hs) in *.
  exists (foldl (store pending) [] (s1 ++ [k])).
  split; [|split].
  - change (settled pending (s1 ++ k :: s2))
      with (Async.deliver (length pending) pending (s1 ++ k :: s2) [] 0).
    apply deliver_first_error_partial; [exact Hk|exact Hok|lia].
  - rewrite (stored_length (reported pending)).
    rewrite max_list_succ by (destruct s1; discriminate).
    rewrite (Permutation_app_comm s1 [k]). simpl. lia.
  - intros i v. destruct (decide (i ∈ s1 ++ [k])) as [Hin|Hout].
    + rewrite (stored_index_in (reported pending)) by exact Hin.
      apply elem_of_app in Hin as [Hin|Hin].
      * destruct (Hok i Hin) as [u Hu]. rewrite Hu. split.
        -- intros [= ->]. auto.
        -- intros [_ [= ->]]. reflexivity.
      * apply list_elem_of_singleton in Hin as ->. rewrite Hk.
        split; [discriminate|]. intros [_ H]. discriminate H.
    + rewrite (stored_index_out (reported pending)) by exact Hout.
      split; [discriminate|]. intros [Hin _]. exfalso.
      apply Hout, elem_of_app. left. exact Hin.
Qed.

End DeliverPartial.

(** X15: when creations fail, the callback of [createMilestones] receives
    the error of the failing reply that arrives first, with the slug of its
    repo attached, and with it the results array as it is then.  The array
    was assigned by index, so it ends at the largest repo position answered
    so far, the failing one included; it reads as the created milestone at
    the position of every repo whose reply came before the failure, and as
    [undefined] everywhere else. *)
Theorem createMilestones_first_error_wins me gh s1 s2 k milestone w repoSlug err :
  NoDup (s1 ++ [k]) ->
  repos me !! k = Some repoSlug ->
  create_replies me gh milestone w !! k = Some (inl err) ->
  (forall i, i ∈ s1 ->
     exists created, create_replies me gh milestone w !! i = Some (inr created)) ->
  exists partial,
    fst (createMilestones me gh (s1 ++ k :: s2) milestone w) =
      Called (Some {| message := message err; err_repo := Some (repo_tag repoSlug) |})
        (Some partial) /\
    length partial = S (max_list (k :: s1)) /\
    forall i created,
      Js.index partial i = Some created <->
      i ∈ s1 /\ create_replies me gh milestone w !! i = Some (inr created).
Proof.
  intros Hnd Hrepo Hk Hok.
  rewrite createMilestones_run. cbn [fst].
  match goal with
  | |- context [settled ?P _] => set (pending := P)
  end.
  assert (Hlookup : forall i,
            pending !! i =
            (fun r => match createMilestone gh (length (calls w) + i)
                              (create_payload milestone r) with
                      | inl e => Async.Done (inl (set_err_repo (repo_tag r) e))
                      | inr result => Async.Done (inr result)
                      end) <$> repos me !! i).
  { intros i. apply list_lookup_imap. }
  assert (Hreply : forall i,
            create_replies me gh milestone w !! i =
            (fun r => createMilestone gh (length (calls w) + i)
                        (create_payload milestone r)) <$> repos me !! i).
  { intros i. apply list_lookup_imap. }
  assert (Hpk : pending !! k =
                Some (Async.Done (inl (set_err_repo (repo_tag repoSlug) err)))).
  { rewrite Hlookup. rewrite Hreply, Hrepo in Hk. rewrite Hrepo. simpl in *.
    injection Hk as ->. reflexivity. }
  assert (Hps : forall i, i ∈ s1 -> exists v, pending !! i = Some (Async.Done (inr v))).
  { intros i Hi. destruct (Hok i Hi) as [created Hcreated].
    rewrite Hreply in Hcreated. rewrite Hlookup.
    destruct (repos me !! i) as [r|]; [|discriminate]. simpl in *.
    injection Hcreated as ->. eauto. }
  assert (Hshort : length s1 < length pending).
  { assert (Hsub : s1 ++ [k] ⊆+ seq 0 (length pending)).
    { apply NoDup_submseteq; [exact Hnd|]. intros i Hi.
      apply elem_of_seq. split; [lia|]. simpl.
      apply elem_of_app in Hi as [Hi|Hi].
      - destruct (Hps i Hi) as [v Hv]. eapply lookup_lt_Some. exact Hv.
      - apply list_elem_of_singleton in Hi as ->. eapply lookup_lt_Some. exact Hpk. }
    apply submseteq_length in Hsub.
    rewrite length_app, length_seq in Hsub. simpl in Hsub. lia. }
  destruct (settled_first_error_partial pending s1 s2 k _ Hpk Hps Hshort)
    as (partial & Hs & Hpl & Hpartial).
  exists partial. split; [rewrite Hs; reflexivity|]. split; [exact Hpl|].
  intros i created. rewrite Hpartial, Hlookup, Hreply.
  destruct (repos me !! i) as [r|]; simpl; [|split; intros [_ H]; discriminate H].
  destruct (createMilestone gh (length (calls w) + i) (create_payload milestone r))
    as [e|result].
  - split; intros [_ H]; discriminate H.
  - split; intros [Hin [= ->]]; auto.
Qed.

Lemma createMilestones_first_error_wins_witness :
  exists partial,
    fst (createMilestones sample_me (sample_gh_create_fails "a") ([] ++ 0 :: [1])%nat
           {["title" := VStr "Sprint 2"]} sample_world) =
      Called (Some {| message := "boom"; err_repo := Some "a/x" |}) (Some partial) /\
    length partial = 1%nat /\
    Js.index partial 0 = None.
Proof.
  destruct (createMilestones_first_error_wins sample_me (sample_gh_create_fails "a")
              [] [1]%nat 0%nat {["title" := VStr "Sprint 2"]} sample_world
              ["a"; "x"] boom) as (partial & Hrun & Hlen & Hpartial).
  - apply NoDup_singleton.
  - reflexivity.
  - reflexivity.
  - intros i Hi. inversion Hi.
  - exists partial. split; [exact Hrun|]. split; [exact Hlen|].
    destruct (Js.index partial 0) as [created|] eqn:Hread; [|reflexivity].
    apply Hpartial in Hread as [Hin _]. inversion Hin.
Defined.

(** X15 on the sample, for the three orders in which a failure can come
    first: [a/x] fails first and the array is [[undefined]]; [b/y] succeeds
    and then [a/x] fails, and the array has the milestone of [b/y] at
    position 1; [a/x] succeeds and then [b/y] fails. *)
Lemma createMilestones_partial_results_on_sample :
  let template : gmap string value := {["title" := VStr "Sprint 2"]} in
  fst (createMilestones sample_me (sample_gh_create_fails "a") [0; 1]%nat template
         sample_world) =
    Called (Some {| message := "boom"; err_repo := Some "a/x" |}) (Some [None]) /\
  fst (createMilestones sample_me (sample_gh_create_fails "a") [1; 0]%nat template
         sample_world) =
    Called (Some {| message := "boom"; err_repo := Some "a/x" |})
      (Some [None; Some (sample_milestone 1 "Sprint 2")]) /\
  fst (createMilestones sample_me (sample_gh_create_fails "b") [0; 1]%nat template
         sample_world) =
    Called (Some {| message := "boom"; err_repo := Some "b/y" |})
      (Some [Some (sample_milestone 0 "Sprint 2"); None]).
Proof. vm_compute. repeat split. Qed.

(** ** No repos, and sorting twice *)

(** X16: with no repo configured, every fan-out operation calls back at
    once, before any reply and for any schedule, with an empty result, and
    sends nothing. *)
Theorem no_repos_configured me gh sched userFilters milestone w :
  repos me = [] ->
  fst (getIssues me gh sched userFilters w) = Called None (Some []) /\
  fst (getMilestones me gh sched w) = Called None (Some ∅) /\
  fst (createMilestones me gh sched milestone w) = Called None (Some []) /\
  requests_since w (snd (getIssues me gh sched userFilters w)) = [] /\
  requests_since w (snd (getMilestones me gh sched w)) = [] /\
  requests_since w (snd (createMilestones me gh sched milestone w)) = [].
Proof.
  intros Hempty.
  rewrite getIssues_outcome, getIssues_requests.
  rewrite getMilestones_run, createMilestones_run. cbn [fst snd].
  unfold requests_since. cbn [calls]. rewrite !drop_app_length, Hempty.
  repeat split.
Qed.

Lemma no_repos_configured_witness :
  fst (getMilestones {| username := "user"; password := "secret"; repos := [] |}
         (sample_gh false false false) [] sample_world) = Called None (Some ∅).
Proof.
  destruct (no_repos_configured
              {| username := "user"; password := "secret"; repos := [] |}
              (sample_gh false false false) [] None ∅ sample_world)
    as (_ & Hlist & _).
  - reflexivity.
  - exact Hlist.
Defined.

(** X17: [sortIssues] applied to its own result gives the issues sorted
    non-increasing by update time with the issues of one update time back in
    their original order: a second pass undoes the reversal of ties of the
    first. *)
Theorem sortIssues_twice issues :
  StronglySorted (fun a b => (updated_at b <= updated_at a)%Z)
    (sortIssues (sortIssues issues)) /\
  sortIssues (sortIssues issues) ≡ₚ issues /\
  forall t,
    filter (fun i => updated_at i = t) (sortIssues (sortIssues issues)) =
    filter (fun i => updated_at i = t) issues.
Proof.
  split; [apply sortIssues_descending|].
  split; [rewrite !sortIssues_Permutation; reflexivity|].
  intros t. rewrite !sortIssues_reverses_ties. apply reverse_involutive.
Qed.

(** ** Where errors and inherited names lead *)

Lemma deliver_error_origin {T} n (pending : list (Async.handled T)) sched :
  forall results completed err data,
    Async.deliver n pending sched results completed = Called (Some err) data ->
    exists k, k ∈ sched /\ pending !! k = Some (Async.Done (inl err)).
Proof.
  induction sched as [|i sched IH]; intros results completed err data; simpl;
    [discriminate|].
  destruct (pending !! i) as [[[e|v]|x]|] eqn:Hi.
  - intros [= -> _]. exists i. split; [left|exact Hi].
  - destruct (decide (n <= S completed)); [discriminate|].
    intros H. apply IH in H as (k & Hk & Hp). exists k. split; [right|]; assumption.
  - discriminate.
  - intros H. apply IH in H as (k & Hk & Hp). exists k. split; [right|]; assumption.
Qed.

Lemma settled_error_origin {T} (pending : list (Async.handled T)) sched err data :
  settled pending sched = Called (Some err) data ->
  exists k, k ∈ sched /\ pending !! k = Some (Async.Done (inl err)).
Proof.
  destruct pending as [|h hs]; [discriminate|].
  unfold settled. apply deliver_error_origin.
Qed.

(** X18: an error that [getIssues] reports is always the error of one of
    its own requests, with the slug of that request's repo attached, and it
    comes without data. *)
Theorem getIssues_error_origin me gh sched userFilters w reported data :
  fst (getIssues me gh sched userFilters w) = Called (Some reported) data ->
  data = None /\
  exists k repoSlug err,
    k ∈ sched /\
    repos me !! k = Some repoSlug /\
    issue_replies me gh userFilters w !! k = Some (inl err) /\
    reported = {| message := message err; err_repo := Some (repo_tag repoSlug) |}.
Proof.
  rewrite getIssues_outcome.
  set (pending := issue_pending_of gh me userFilters w).
  change (issues_outcome (settled pending sched) = Called (Some reported) data ->
          data = None /\
          exists k repoSlug err,
            k ∈ sched /\
            repos me !! k = Some repoSlug /\
            issue_replies me gh userFilters w !! k = Some (inl err) /\
            reported = {| message := message err; err_repo := Some (repo_tag repoSlug) |}).
  destruct (settled pending sched) as [[e|] d| |] eqn:Hs; try discriminate.
  simpl. intros [= -> <-]. split; [reflexivity|].
  apply settled_error_origin in Hs as (k & Hk & Hp). subst pending.
  destruct (issue_reply_of_pending gh me userFilters w k _ Hp)
    as (r & reply & Hreply & _).
  destruct (issue_pending_of_reply gh me userFilters w k reply Hreply)
    as (repoSlug & Hrepo & Hp2).
  rewrite Hp in Hp2. injection Hp2 as Hp2.
  destruct reply as [err|issues]; [|discriminate].
  injection Hp2 as ->.
  exists k, repoSlug, err. auto.
Qed.

Lemma getIssues_error_origin_witness :
  exists k repoSlug err,
    k ∈ [0; 1]%nat /\
    repos sample_me !! k = Some repoSlug /\
    issue_replies sample_me (sample_gh true false false) None sample_world !! k =
      Some (inl err) /\
    {| message := "boom"; err_repo := Some "b/y" |} =
      {| message := message err; err_repo := Some (repo_tag repoSlug) |}.
Proof.
  destruct (getIssues_error_origin sample_me (sample_gh true false false) [0; 1]%nat None
              sample_world {| message := "boom"; err_repo := Some "b/y" |} None)
    as (_ & Horigin).
  - reflexivity.
  - exact Horigin.
Defined.

(** X19: a title that is no milestone's but names an inherited member is
    not a miss.  For an inherited function with parameters ([constructor],
    [hasOwnProperty], ...) mapping over it throws; for one without
    parameters ([toString], [valueOf], ...) and for [__proto__] there is
    nothing to map and the callback receives the empty list.  No update is
    sent in either case.  (No milestone is titled [__proto__], which would
    change what the groups inherit.) *)
Theorem closeMilestones_inherited_names me gh sched1 sched2 t w groups member :
  fst (getMilestones me gh sched1 w) = Called None (Some groups) ->
  groups !! "__proto__" = None ->
  groups !! t = None ->
  Js.assoc t Js.object_prototype = Some member ->
  closeMilestones me gh sched1 sched2 t w =
  (match member with
   | Js.ProtoFunction (S _) =>
       Threw (TypeError "Cannot read property 'repo' of undefined")
   | _ => Called None (Some [])
   end,
   snd (getMilestones me gh sched1 w)).
Proof.
  intros Hok _ Hnone Hmember. unfold closeMilestones, bind.
  destruct (getMilestones me gh sched1 w) as [r w1]. cbn [fst snd] in *. subst r.
  cbn iota beta. unfold Js.get. rewrite Hnone, Hmember.
  destruct member as [[|arity]|]; reflexivity.
Qed.

Lemma closeMilestones_inherited_names_witness :
  fst (closeMilestones sample_me (sample_gh false false false) [0; 1]%nat [] "toString"
         sample_world) = Called None (Some []).
Proof.
  rewrite (closeMilestones_inherited_names sample_me (sample_gh false false false)
             [0; 1]%nat [] "toString" sample_world
             {["Sprint 1" := [set_milestone_repo "a/x" (sample_milestone 7 "Sprint 1");
                              set_milestone_repo "b/y" (sample_milestone 3 "Sprint 1")]]}
             (Js.ProtoFunction 0)).
  - reflexivity.
  - vm_compute. reflexivity.
  - reflexivity.
  - reflexivity.
  - reflexivity.
Defined.
